(** * proactive-fetch: the single-flight token-refresh coordinator and fetchJSON

    A shallow embedding of [src/configureRefreshFetch.ts] and
    [src/fetchJSON.ts].

    The wrapped fetch function is an [async] function: it runs atomically
    between two [await]s and interleaves with the other invocations only at
    an [await].  Every invocation is therefore a small state machine whose
    states are the [await]s of the source, and the coordinator is a
    transition system over the shared variable [refreshingTokenPromise], the
    promises installed in it, and the invocations in flight.  The transport
    ([fetch]) and the refresh routine ([refreshToken]) belong to the caller:
    their outcomes are chosen by the schedule.

    [fetch] returns a promise that settles later (a [fetch] that throws is
    a [fetch] that rejects: every call of it is awaited on the spot), and
    [shouldRefreshToken] is a total predicate.  [refreshToken] returns a
    promise that settles later, or it throws, or returns something without a
    [then]: the executor of line 37 then throws before it has attached the
    callbacks of lines 39-46, and the promise of line 37 is rejected as it
    is made.  A schedule may run the continuations that are ready in any
    order, which covers the order of a JavaScript job queue.  Every
    invocation carries the history of what it did and saw; the history is
    only read by the theorems. *)

From Stdlib Require Import ZArith String Ascii List Lia.
From stdpp Require Import base tactics option list.
Import ListNotations.

Set Default Proof Using "Type".

Module Coordinator.

Section RefreshFetch.

(** The JavaScript values the coordinator passes around without looking
    inside: request locators, request options, and everything a promise
    can resolve or reject with. *)
Context {Url Opts Val : Type}.

(** [configuration.shouldRefreshToken], a predicate on rejection values. *)
Variable shouldRefreshToken : Val -> bool.

(** What the call number [n] of [configuration.refreshToken] throws inside
    the executor of line 37, when it does not return a promise. *)
Variable refreshTokenThrows : nat -> option Val.

(** How a transport promise settles. *)
Inductive Outcome :=
| Resolved (v : Val)
| Rejected (e : Val).

(** How the promise returned by [refreshToken()] settles. *)
Inductive RefreshResult :=
| RefreshOk
| RefreshFailed (e : Val).

(** What one invocation does and sees, in program order. *)
Inductive Event :=
| EvEnter (h : option nat)            (* line 19: the handle the invocation found *)
| EvFetch (u : Url) (o : Opts)        (* [fetch(url, options)] is called *)
| EvFetchSettled (r : Outcome)        (* the awaited transport call settled *)
| EvShouldRefresh (e : Val) (b : bool)(* line 34: [shouldRefreshToken(error)] returned [b] *)
| EvRefreshToken (p : nat)            (* lines 37-38: [refreshToken()] is called, handle [p] installed *)
| EvAwaited (p : nat) (r : RefreshResult). (* lines 21, 51: the awaited handle settled *)

(** The [await] at which an invocation is suspended, with the locals that
    are live there, or its final result. *)
Inductive PC :=
| WaitRefreshBystander (p : nat)      (* line 21 *)
| WaitFetchBystander                  (* line 22, inside the [try] *)
| WaitFetchBystanderCatch             (* line 26, inside the [catch] *)
| WaitFetch                           (* line 31 *)
| WaitRefresh (p : nat) (error : Val) (* line 51 *)
| WaitRetry (error : Val)             (* line 53 *)
| Settled (r : Outcome).

Record Call := {
  url : Url;
  options : Opts;
  pc : PC;
  hist : list Event
}.

(** The closure of [configureRefreshFetch]: the variable
    [refreshingTokenPromise] (a promise is named by its index in
    [promises], where [None] is a promise not settled yet), the number of
    calls made to [refreshToken], and the invocations so far. *)
Record State := {
  refreshingTokenPromise : option nat;
  promises : list (option RefreshResult);
  refreshTokenCalls : nat;
  calls : list Call
}.

Definition init : State :=
  {| refreshingTokenPromise := None; promises := []; refreshTokenCalls := 0; calls := [] |}.

(** The promise of lines 37-47 as it is installed by the call number [n]
    of [refreshToken]: not settled, or rejected already with what the call
    threw. *)
Definition installed (n : nat) : option RefreshResult :=
  match refreshTokenThrows n with
  | None => None
  | Some thrown => Some (RefreshFailed thrown)
  end.

(** What the scheduler can do: start an invocation, settle the transport
    call an invocation awaits, settle the promise [refreshToken()] returned
    (which runs the [then] or [catch] callback of lines 39-46), or resume an
    invocation that awaits a settled handle. *)
Inductive Action :=
| Invoke (u : Url) (o : Opts)
| FetchSettles (i : nat) (r : Outcome)
| RefreshSettles (r : RefreshResult)
| Resume (i : nat).

Definition advance (c : Call) (pc' : PC) (evs : list Event) : Call :=
  {| url := url c; options := options c; pc := pc'; hist := hist c ++ evs |}.

Definition setCall (s : State) (i : nat) (c : Call) : State :=
  {| refreshingTokenPromise := refreshingTokenPromise s;
     promises := promises s;
     refreshTokenCalls := refreshTokenCalls s;
     calls := <[i := c]> (calls s) |}.

(** Lines 17-31, up to the first [await]. *)
Definition invoke (s : State) (u : Url) (o : Opts) : State :=
  let c :=
    match refreshingTokenPromise s with
    | Some p =>
        {| url := u; options := o; pc := WaitRefreshBystander p;
           hist := [EvEnter (Some p)] |}
    | None =>
        {| url := u; options := o; pc := WaitFetch;
           hist := [EvEnter None; EvFetch u o] |}
    end in
  {| refreshingTokenPromise := refreshingTokenPromise s;
     promises := promises s;
     refreshTokenCalls := refreshTokenCalls s;
     calls := calls s ++ [c] |}.

(** The continuation of an [await fetch(url, options)]. *)
Definition fetchSettles (s : State) (i : nat) (r : Outcome) : option State :=
  match calls s !! i with
  | None => None
  | Some c =>
      match pc c, r with
      (* line 22: [return await fetch(url, options)] in the [try] *)
      | WaitFetchBystander, Resolved _ =>
          Some (setCall s i (advance c (Settled r) [EvFetchSettled r]))
      (* lines 23-26: the [catch] also catches the rejection of line 22 *)
      | WaitFetchBystander, Rejected _ =>
          Some (setCall s i (advance c WaitFetchBystanderCatch
                               [EvFetchSettled r; EvFetch (url c) (options c)]))
      (* line 26 *)
      | WaitFetchBystanderCatch, _ =>
          Some (setCall s i (advance c (Settled r) [EvFetchSettled r]))
      (* line 31 *)
      | WaitFetch, Resolved _ =>
          Some (setCall s i (advance c (Settled r) [EvFetchSettled r]))
      (* lines 32-61 *)
      | WaitFetch, Rejected error =>
          if shouldRefreshToken error then
            match refreshingTokenPromise s with
            | None =>
                (* lines 36-48: check, [refreshToken()], install *)
                let p := length (promises s) in
                Some {| refreshingTokenPromise := Some p;
                        promises := promises s ++ [installed (refreshTokenCalls s)];
                        refreshTokenCalls := S (refreshTokenCalls s);
                        calls := <[i := advance c (WaitRefresh p error)
                                         [EvFetchSettled r;
                                          EvShouldRefresh error true;
                                          EvRefreshToken p]]> (calls s) |}
            | Some p =>
                Some (setCall s i (advance c (WaitRefresh p error)
                                     [EvFetchSettled r; EvShouldRefresh error true]))
            end
          else
            (* line 60 *)
            Some (setCall s i (advance c (Settled (Rejected error))
                                 [EvFetchSettled r; EvShouldRefresh error false]))
      (* line 53 *)
      | WaitRetry _, Resolved _ =>
          Some (setCall s i (advance c (Settled r) [EvFetchSettled r]))
      (* lines 54-56: the [catch] also catches the rejection of line 53 *)
      | WaitRetry error, Rejected _ =>
          Some (setCall s i (advance c (Settled (Rejected error)) [EvFetchSettled r]))
      | _, _ => None
      end
  end.

(** Lines 39-46: the callback that runs when the promise [refreshToken()]
    returned settles.  There is such a callback only for the handle that is
    installed and not settled: a handle that was rejected as it was made has
    none. *)
Definition refreshSettles (s : State) (r : RefreshResult) : option State :=
  match refreshingTokenPromise s with
  | None => None
  | Some p =>
      match promises s !! p with
      | Some None =>
          Some {| refreshingTokenPromise := None;
                  promises := <[p := Some r]> (promises s);
                  refreshTokenCalls := refreshTokenCalls s;
                  calls := calls s |}
      | _ => None
      end
  end.

(** The continuation of an [await refreshingTokenPromise]. *)
Definition resume (s : State) (i : nat) : option State :=
  match calls s !! i with
  | None => None
  | Some c =>
      match pc c with
      | WaitRefreshBystander p =>
          match promises s !! p with
          | Some (Some RefreshOk) =>
              (* line 22 *)
              Some (setCall s i (advance c WaitFetchBystander
                                   [EvAwaited p RefreshOk; EvFetch (url c) (options c)]))
          | Some (Some (RefreshFailed e)) =>
              (* line 26 *)
              Some (setCall s i (advance c WaitFetchBystanderCatch
                                   [EvAwaited p (RefreshFailed e);
                                    EvFetch (url c) (options c)]))
          | _ => None
          end
      | WaitRefresh p error =>
          match promises s !! p with
          | Some (Some RefreshOk) =>
              (* line 53 *)
              Some (setCall s i (advance c (WaitRetry error)
                                   [EvAwaited p RefreshOk; EvFetch (url c) (options c)]))
          | Some (Some (RefreshFailed e)) =>
              (* line 56 *)
              Some (setCall s i (advance c (Settled (Rejected error))
                                   [EvAwaited p (RefreshFailed e)]))
          | _ => None
          end
      | _ => None
      end
  end.

Definition step (s : State) (a : Action) : option State :=
  match a with
  | Invoke u o => Some (invoke s u o)
  | FetchSettles i r => fetchSettles s i r
  | RefreshSettles r => refreshSettles s r
  | Resume i => resume s i
  end.

Fixpoint run (s : State) (acts : list Action) : option State :=
  match acts with
  | [] => Some s
  | a :: rest =>
      match step s a with
      | Some s' => run s' rest
      | None => None
      end
  end.

Definition reachable (s : State) : Prop := exists acts, run init acts = Some s.

(** ** Reading an invocation's history *)

(** The transport calls an invocation issued, with their arguments. *)
Fixpoint fetchesOf (h : list Event) : list (Url * Opts) :=
  match h with
  | [] => []
  | EvFetch u o :: h' => (u, o) :: fetchesOf h'
  | _ :: h' => fetchesOf h'
  end.

(** The outcomes of the transport calls it awaited. *)
Fixpoint fetchOutcomes (h : list Event) : list Outcome :=
  match h with
  | [] => []
  | EvFetchSettled r :: h' => r :: fetchOutcomes h'
  | _ :: h' => fetchOutcomes h'
  end.

(** The arguments of its calls to [shouldRefreshToken]. *)
Fixpoint shouldRefreshArgs (h : list Event) : list Val :=
  match h with
  | [] => []
  | EvShouldRefresh e _ :: h' => e :: shouldRefreshArgs h'
  | _ :: h' => shouldRefreshArgs h'
  end.

(** The handles it installed, one for each of its calls to [refreshToken]. *)
Fixpoint refreshesOf (h : list Event) : list nat :=
  match h with
  | [] => []
  | EvRefreshToken p :: h' => p :: refreshesOf h'
  | _ :: h' => refreshesOf h'
  end.

(** How the handles it awaited settled. *)
Fixpoint awaitedOf (h : list Event) : list RefreshResult :=
  match h with
  | [] => []
  | EvAwaited _ r :: h' => r :: awaitedOf h'
  | _ :: h' => awaitedOf h'
  end.

(** The handle an invocation found when it began. *)
Definition enteredWith (c : Call) : option (option nat) :=
  match hist c with
  | EvEnter h :: _ => Some h
  | _ => None
  end.

(** The handle a suspended invocation awaits. *)
Definition awaits (c : Call) : option nat :=
  match pc c with
  | WaitRefreshBystander p => Some p
  | WaitRefresh p _ => Some p
  | _ => None
  end.

(** ** Invariants *)

Definition installEvent (installed : bool) (p : nat) : list Event :=
  if installed then [EvRefreshToken p] else [].

(** The paths through the body of the wrapped function: every program
    point with the history that leads to it. *)
Inductive CallShape (u : Url) (o : Opts) : PC -> list Event -> Prop :=
| ShFetch :
    CallShape u o WaitFetch [EvEnter None; EvFetch u o]
| ShPass v :
    CallShape u o (Settled (Resolved v))
      [EvEnter None; EvFetch u o; EvFetchSettled (Resolved v)]
| ShRethrow e :
    shouldRefreshToken e = false ->
    CallShape u o (Settled (Rejected e))
      [EvEnter None; EvFetch u o; EvFetchSettled (Rejected e);
       EvShouldRefresh e false]
| ShRefresh e p b :
    shouldRefreshToken e = true ->
    CallShape u o (WaitRefresh p e)
      ([EvEnter None; EvFetch u o; EvFetchSettled (Rejected e);
        EvShouldRefresh e true] ++ installEvent b p)
| ShRetry e p b :
    shouldRefreshToken e = true ->
    CallShape u o (WaitRetry e)
      ([EvEnter None; EvFetch u o; EvFetchSettled (Rejected e);
        EvShouldRefresh e true] ++ installEvent b p
         ++ [EvAwaited p RefreshOk; EvFetch u o])
| ShRetried e p b v :
    shouldRefreshToken e = true ->
    CallShape u o (Settled (Resolved v))
      ([EvEnter None; EvFetch u o; EvFetchSettled (Rejected e);
        EvShouldRefresh e true] ++ installEvent b p
         ++ [EvAwaited p RefreshOk; EvFetch u o; EvFetchSettled (Resolved v)])
| ShRetryFailed e p b e2 :
    shouldRefreshToken e = true ->
    CallShape u o (Settled (Rejected e))
      ([EvEnter None; EvFetch u o; EvFetchSettled (Rejected e);
        EvShouldRefresh e true] ++ installEvent b p
         ++ [EvAwaited p RefreshOk; EvFetch u o; EvFetchSettled (Rejected e2)])
| ShRefreshFailed e p b re :
    shouldRefreshToken e = true ->
    CallShape u o (Settled (Rejected e))
      ([EvEnter None; EvFetch u o; EvFetchSettled (Rejected e);
        EvShouldRefresh e true] ++ installEvent b p
         ++ [EvAwaited p (RefreshFailed re)])
| ShBystander p :
    CallShape u o (WaitRefreshBystander p) [EvEnter (Some p)]
| ShBystanderFetch p :
    CallShape u o WaitFetchBystander
      [EvEnter (Some p); EvAwaited p RefreshOk; EvFetch u o]
| ShBystanderDone p v :
    CallShape u o (Settled (Resolved v))
      [EvEnter (Some p); EvAwaited p RefreshOk; EvFetch u o;
       EvFetchSettled (Resolved v)]
| ShBystanderAgain p e :
    CallShape u o WaitFetchBystanderCatch
      [EvEnter (Some p); EvAwaited p RefreshOk; EvFetch u o;
       EvFetchSettled (Rejected e); EvFetch u o]
| ShBystanderAgainDone p e r :
    CallShape u o (Settled r)
      [EvEnter (Some p); EvAwaited p RefreshOk; EvFetch u o;
       EvFetchSettled (Rejected e); EvFetch u o; EvFetchSettled r]
| ShBystanderCatch p re :
    CallShape u o WaitFetchBystanderCatch
      [EvEnter (Some p); EvAwaited p (RefreshFailed re); EvFetch u o]
| ShBystanderCatchDone p re r :
    CallShape u o (Settled r)
      [EvEnter (Some p); EvAwaited p (RefreshFailed re); EvFetch u o;
       EvFetchSettled r].

Definition callOk (c : Call) : Prop :=
  CallShape (url c) (options c) (pc c) (hist c).

(** The variable [refreshingTokenPromise] holds the one promise that is
    not settled, when there is one; a promise it holds is not settled, or
    was rejected as it was made, by a call of [refreshToken] that threw. *)
Definition handleOk (s : State) : Prop :=
  (forall q, promises s !! q = Some None -> refreshingTokenPromise s = Some q) /\
  (forall q, refreshingTokenPromise s = Some q ->
     promises s !! q = Some None \/
     exists n thrown,
       refreshTokenThrows n = Some thrown /\
       promises s !! q = Some (Some (RefreshFailed thrown))).

(** What a transition does to the closure's variable: nothing, or the
    install of lines 36-48, or the reset of lines 40 and 44. *)
Inductive HandleChange (s s' : State) : Prop :=
| HcSame :
    refreshingTokenPromise s' = refreshingTokenPromise s ->
    promises s' = promises s ->
    refreshTokenCalls s' = refreshTokenCalls s ->
    HandleChange s s'
| HcInstall :
    refreshingTokenPromise s = None ->
    refreshingTokenPromise s' = Some (length (promises s)) ->
    promises s' = promises s ++ [installed (refreshTokenCalls s)] ->
    refreshTokenCalls s' = S (refreshTokenCalls s) ->
    HandleChange s s'
| HcReset p r :
    refreshingTokenPromise s = Some p ->
    promises s !! p = Some None ->
    refreshingTokenPromise s' = None ->
    promises s' = <[p := Some r]> (promises s) ->
    refreshTokenCalls s' = refreshTokenCalls s ->
    calls s' = calls s ->
    HandleChange s s'.

Record Inv (s : State) : Prop := {
  inv_calls : Forall callOk (calls s);
  inv_handle : handleOk s;
  inv_count : refreshTokenCalls s = length (promises s)
}.

(** ** A failure episode *)

(** [N] concurrent invocations, then the failures of their transport
    calls, as schedules. *)
Definition invokeAll (args : list (Url * Opts)) : list Action :=
  map (fun a => Invoke (fst a) (snd a)) args.

Definition failAll (fails : list (nat * Val)) : list Action :=
  map (fun f => FetchSettles (fst f) (Rejected (snd f))) fails.

(** A schedule that starts no invocation and leaves alone the invocations
    before [base]. *)
Definition onlyFrom (base : nat) (a : Action) : bool :=
  match a with
  | Invoke _ _ => false
  | FetchSettles i _ => base <=? i
  | RefreshSettles _ => true
  | Resume i => base <=? i
  end.

(** The transport calls of an invocation that went through an episode
    whose refresh settled with [r]: the first one, and the retry of line 53
    once the invocation has resumed after a successful refresh. *)
Definition retries (r : RefreshResult) (c : Call) : list (Url * Opts) :=
  match r with
  | RefreshOk => [(url c, options c)]
  | RefreshFailed _ => []
  end.

Definition expectedFetches (r : RefreshResult) (c : Call) : list (Url * Opts) :=
  match pc c with
  | WaitRefresh _ _ => [(url c, options c)]
  | _ => (url c, options c) :: retries r c
  end.

(** While the failures come in, [N] invocations after the state [s0]: those
    in [failed] wait for the handle of the episode, the others for their
    transport call. *)
Record FanIn (s0 : State) (N : nat) (failed : list nat) (s : State) : Prop := {
  fanin_length : length (calls s) = length (calls s0) + N;
  fanin_calls : forall i c, length (calls s0) <= i -> calls s !! i = Some c ->
    fetchesOf (hist c) = [(url c, options c)] /\
    ((pc c = WaitFetch /\ fetchOutcomes (hist c) = [] /\ i ∉ failed) \/
     (exists e, pc c = WaitRefresh (length (promises s0)) e /\
        fetchOutcomes (hist c) = [Rejected e] /\ i ∈ failed));
  fanin_handle :
    match failed with
    | [] => refreshingTokenPromise s = None /\
            promises s = promises s0 /\
            refreshTokenCalls s = refreshTokenCalls s0
    | _ => refreshingTokenPromise s = Some (length (promises s0)) /\
           promises s = promises s0 ++ [installed (refreshTokenCalls s0)] /\
           refreshTokenCalls s = S (refreshTokenCalls s0)
    end
}.

(** After the refresh has settled with [r]: every one of the [N]
    invocations has its first failure [e], and waits for the handle, or for
    its retry, or has settled. *)
Record FanOut (s0 : State) (N : nat) (r : RefreshResult) (s : State) : Prop := {
  fanout_length : length (calls s) = length (calls s0) + N;
  fanout_handle :
    refreshingTokenPromise s = None \/
    refreshingTokenPromise s = Some (length (promises s0));
  fanout_promises : promises s = promises s0 ++ [Some r];
  fanout_count : refreshTokenCalls s = S (refreshTokenCalls s0);
  fanout_calls : forall i c, length (calls s0) <= i -> calls s !! i = Some c ->
    fetchesOf (hist c) = expectedFetches r c /\
    exists e, head (fetchOutcomes (hist c)) = Some (Rejected e) /\
      match pc c with
      | WaitRefresh p e' => p = length (promises s0) /\ e' = e
      | WaitRetry e' => r = RefreshOk /\ e' = e
      | Settled result =>
          match r with
          | RefreshOk => True
          | RefreshFailed _ => result = Rejected e
          end
      | _ => False
      end
}.

End RefreshFetch.

End Coordinator.

(** * Concrete runs

    The mocks of [test/configureRefreshFetch.spec.ts]: locators, options,
    results and errors are strings, and a failure is auth-related when its
    message is ["Token expired"]. *)

Module Scenarios.

Import Coordinator.

Local Open Scope string_scope.

Definition isTokenExpired (error : string) : bool :=
  String.eqb error "Token expired".

Definition start : @State string string string := init.

(** A [refreshToken] that returns a promise at every call. *)
Definition returnsPromise : nat -> option string := fun _ => None.

(** A [refreshToken] that throws at every call. *)
Definition throwsAtOnce : nat -> option string := fun _ => Some "Not signed in".

(** One invocation whose transport call succeeds. *)
Definition passThrough : list (@Action string string string) :=
  [Invoke "/foo" "POST"; FetchSettles 0 (Resolved "result")].

(** One invocation whose transport call fails for another reason. *)
Definition otherFailure : list (@Action string string string) :=
  [Invoke "/foo" "POST"; FetchSettles 0 (Rejected "I am reason")].

(** One invocation, token expired, and the refresh fails too. *)
Definition refreshFails : list (@Action string string string) :=
  [Invoke "/api/data" "GET";
   FetchSettles 0 (Rejected "Token expired");
   RefreshSettles (RefreshFailed "Refresh failed");
   Resume 0].

(** One invocation, token expired, the refresh succeeds, and the retry
    fails for another reason. *)
Definition retryFails : list (@Action string string string) :=
  [Invoke "/api/data" "GET";
   FetchSettles 0 (Rejected "Token expired");
   RefreshSettles RefreshOk;
   Resume 0;
   FetchSettles 0 (Rejected "Service unavailable")].

(** A second invocation begins while the refresh triggered by the first
    is pending; the refresh fails. *)
Definition bystanderRefreshFails : list (@Action string string string) :=
  [Invoke "/api/data1" "GET";
   FetchSettles 0 (Rejected "Token expired");
   Invoke "/api/data2" "POST";
   RefreshSettles (RefreshFailed "Refresh failed");
   Resume 0;
   Resume 1;
   FetchSettles 1 (Rejected "Service unavailable")].

(** One invocation has failed and its refresh is pending. *)
Definition refreshPending : list (@Action string string string) :=
  [Invoke "/api/data" "GET"; FetchSettles 0 (Rejected "Token expired")].

(** A second invocation begins while the refresh is pending; the refresh
    succeeds, the transport call of the second invocation fails, and the
    [catch] of line 23 calls the transport once more. *)
Definition bystanderFetchFails : list (@Action string string string) :=
  [Invoke "/api/data1" "GET";
   FetchSettles 0 (Rejected "Token expired");
   Invoke "/api/data2" "POST";
   RefreshSettles RefreshOk;
   Resume 0;
   Resume 1;
   FetchSettles 0 (Resolved "success");
   FetchSettles 1 (Rejected "Token expired");
   FetchSettles 1 (Resolved "success")].

(** A second invocation begins while the refresh is pending; the refresh
    succeeds, and both transport calls of the second invocation fail. *)
Definition bystanderFetchFailsTwice : list (@Action string string string) :=
  [Invoke "/api/data1" "GET";
   FetchSettles 0 (Rejected "Token expired");
   Invoke "/api/data2" "POST";
   RefreshSettles RefreshOk;
   Resume 1;
   FetchSettles 1 (Rejected "Service unavailable");
   FetchSettles 1 (Rejected "Gateway timeout")].

(** With a [refreshToken] that throws: the invocation that called it
    resumes and has settled when a second one begins, whose transport calls
    fail with an auth-related error. *)
Definition afterThrownRefresh : list (@Action string string string) :=
  [Invoke "/api/data1" "GET";
   FetchSettles 0 (Rejected "Token expired");
   Resume 0;
   Invoke "/api/data2" "GET";
   Resume 1;
   FetchSettles 1 (Rejected "Token expired")].

(** Two invocations begin together; the transport call of the second
    fails only after the refresh triggered by the first has settled. *)
Definition twoEpisodes : list (@Action string string string) :=
  [Invoke "/api/data1" "GET";
   Invoke "/api/data2" "GET";
   FetchSettles 0 (Rejected "Token expired");
   RefreshSettles RefreshOk;
   Resume 0;
   FetchSettles 1 (Rejected "Token expired")].

(** Three concurrent invocations fail at once, the refresh resolves, the
    three retries succeed. *)
Definition threeArgs : list (string * string) :=
  [("/api/data1", "GET"); ("/api/data2", "GET"); ("/api/data3", "GET")].

Definition threeFails : list (nat * string) :=
  [(1, "Token expired"); (0, "Token expired"); (2, "Token expired")].

Definition threeTail : list (@Action string string string) :=
  [Resume 1; Resume 0; Resume 2; FetchSettles 0 (Resolved "success");
   FetchSettles 2 (Resolved "success"); FetchSettles 1 (Resolved "success")].

Definition threeConcurrent : list (@Action string string string) :=
  (invokeAll threeArgs ++ failAll threeFails ++ RefreshSettles RefreshOk :: threeTail)%list.

End Scenarios.

(** * JavaScript values

    What [fetchJSON] handles: request options, parsed response bodies and
    rejection reasons.  An object is the list of its own enumerable
    properties in creation order, an array the list of its elements, a
    [Buffer] or a typed array ([Uint8Array], ...) its kind and the bytes it
    holds; these are known by what they hold, so that a copy equals the
    original.  An instance is any other object (a [Headers], a [FormData],
    an [AbortSignal], an [ArrayBuffer], a [TypeError], a function), of which
    only the identity is kept.  A number is kept as the literal that denotes
    it. *)

Module JS.

Local Open Scope string_scope.

#[local] Set Warnings "-register-all".

Inductive value :=
| VUndefined
| VNull
| VBool (b : bool)
| VNum (literal : string)
| VStr (s : string)
| VArr (elems : list value)
| VObj (props : list (string * value))
| VBytes (kind content : string)
| VInst (id : nat).

Definition props := list (string * value).

(** [key in object], for the own properties. *)
Fixpoint hasKey (key : string) (object : props) : bool :=
  match object with
  | [] => false
  | (k, _) :: rest => if String.eqb k key then true else hasKey key rest
  end.

(** [object[key]], for the own properties. *)
Fixpoint getProp (key : string) (object : props) : value :=
  match object with
  | [] => VUndefined
  | (k, v) :: rest => if String.eqb k key then v else getProp key rest
  end.

(** [object[key] = v]: an existing property keeps its place. *)
Fixpoint setProp (key : string) (v : value) (object : props) : props :=
  match object with
  | [] => [(key, v)]
  | (k, w) :: rest =>
      if String.eqb k key then (k, v) :: rest else (k, w) :: setProp key v rest
  end.

(** The names every object inherits from [Object.prototype]. *)
Definition protoKey (key : string) : bool :=
  existsb (String.eqb key)
    ["__proto__"; "constructor"; "hasOwnProperty"; "isPrototypeOf";
     "propertyIsEnumerable"; "toLocaleString"; "toString"; "valueOf";
     "__defineGetter__"; "__defineSetter__"; "__lookupGetter__";
     "__lookupSetter__"].

(** Neither [undefined] nor an object. *)
Definition isDefinedPrimitive (v : value) : bool :=
  match v with
  | VNull | VBool _ | VNum _ | VStr _ => true
  | _ => false
  end.

End JS.

(** * lodash's [merge]

    [lodash/merge] is a dependency of the repository; this is its algorithm
    ([baseMerge], [baseMergeDeep], [assignMergeValue]) on the values above.
    [None] marks the calls that leave this fragment: a destination that is an
    instance or has a [length], a plain object merged into an array, and a
    property that shadows a name of [Object.prototype] with [undefined] or
    with an object.  Plain objects and arrays are merged into new ones, a
    [Buffer] and a typed array are cloned ([cloneBuffer],
    [cloneTypedArray]), and any other object is assigned as it is. *)

Module Lodash.

Import JS.

Local Open Scope string_scope.

(** [assignMergeValue]: [undefined] is assigned only to a key the object
    does not have. *)
Definition assignMergeValue (object : props) (key : string) (v : value) : props :=
  match v with
  | VUndefined => if hasKey key object then object else setProp key VUndefined object
  | _ => setProp key v object
  end.

(** The loop of [baseMerge] over the properties of [source]; [mergeDeep]
    computes the value to assign from the destination's and the source's. *)
Definition mergeProps (mergeDeep : value -> value -> option value) :=
  fix go (object source : props) {struct source} : option props :=
    match source with
    | [] => Some object
    | (key, srcValue) :: rest =>
        if protoKey key && negb (isDefinedPrimitive srcValue) then None
        else
          match mergeDeep (getProp key object) srcValue with
          | Some newValue => go (assignMergeValue object key newValue) rest
          | None => None
          end
    end.

(** The same loop over the indices of an array. *)
Definition mergeElems (mergeDeep : value -> value -> option value) :=
  fix go (object source : list value) {struct source} : option (list value) :=
    match source with
    | [] => Some object
    | srcValue :: rest =>
        match object with
        | [] =>
            match mergeDeep VUndefined srcValue, go [] rest with
            | Some newValue, Some elems => Some (newValue :: elems)
            | _, _ => None
            end
        | objValue :: object' =>
            match mergeDeep objValue srcValue, go object' rest with
            | Some VUndefined, Some elems => Some (objValue :: elems)
            | Some newValue, Some elems => Some (newValue :: elems)
            | _, _ => None
            end
        end
    end.

(** [baseMergeDeep], and the [else] branch of [baseMerge] for a source
    value that is not an object: the value assigned under a key whose
    destination value is [objValue] and whose source value is [srcValue]. *)
Fixpoint mergeDeep (objValue srcValue : value) {struct srcValue} : option value :=
  match srcValue with
  | VArr source =>
      match objValue with
      | VArr object => VArr <$> mergeElems mergeDeep object source
      | VObj object =>
          if hasKey "length" object then None
          else VArr <$> mergeElems mergeDeep [] source
      | VBytes _ _ | VInst _ => None
      | _ => VArr <$> mergeElems mergeDeep [] source
      end
  | VObj source =>
      match objValue with
      | VObj object => VObj <$> mergeProps mergeDeep object source
      | VArr _ | VBytes _ _ | VInst _ => None
      | _ => VObj <$> mergeProps mergeDeep [] source
      end
  | VBytes kind content =>
      (* [isBuff] or [isTyped]: a clone, unless the destination is an array
         or is array-like *)
      match objValue with
      | VObj object =>
          if hasKey "length" object then None else Some (VBytes kind content)
      | VArr _ | VBytes _ _ | VInst _ => None
      | _ => Some (VBytes kind content)
      end
  | _ => Some srcValue
  end.

(** [merge(object, source)] for two plain objects. *)
Definition merge (object source : props) : option props :=
  mergeProps mergeDeep object source.

End Lodash.

(** * [JSON.parse]

    The built-in parser, on texts given as UTF-8 bytes: [None] is a
    [SyntaxError]. *)

Module JSON.

Import JS.

Local Open Scope char_scope.

Definition isWhitespace (c : ascii) : bool :=
  (c =? " ") || (c =? "009") || (c =? "010") || (c =? "013").

Fixpoint skipWhitespace (cs : list ascii) : list ascii :=
  match cs with
  | c :: rest => if isWhitespace c then skipWhitespace rest else cs
  | [] => []
  end.

Definition isDigit (c : ascii) : bool :=
  (48 <=? nat_of_ascii c)%nat && (nat_of_ascii c <=? 57)%nat.

Definition hexDigit (c : ascii) : option N :=
  let n := N_of_ascii c in
  if (48 <=? n)%N && (n <=? 57)%N then Some (n - 48)%N
  else if (65 <=? n)%N && (n <=? 70)%N then Some (n - 55)%N
  else if (97 <=? n)%N && (n <=? 102)%N then Some (n - 87)%N
  else None.

Definition hex4 (h1 h2 h3 h4 : ascii) : option N :=
  match hexDigit h1, hexDigit h2, hexDigit h3, hexDigit h4 with
  | Some a, Some b, Some c, Some d => Some (((a * 16 + b) * 16 + c) * 16 + d)%N
  | _, _, _, _ => None
  end.

(** The UTF-8 bytes of a code point. *)
Definition utf8 (cp : N) : list ascii :=
  (if cp <? 128 then [ascii_of_N cp]
   else if cp <? 2048 then
     [ascii_of_N (192 + cp / 64); ascii_of_N (128 + cp mod 64)]
   else if cp <? 65536 then
     [ascii_of_N (224 + cp / 4096); ascii_of_N (128 + (cp / 64) mod 64);
      ascii_of_N (128 + cp mod 64)]
   else
     [ascii_of_N (240 + cp / 262144); ascii_of_N (128 + (cp / 4096) mod 64);
      ascii_of_N (128 + (cp / 64) mod 64); ascii_of_N (128 + cp mod 64)])%N.

Definition unescape (c : ascii) : option ascii :=
  if c =? "034" then Some "034"
  else if c =? "\" then Some "\"
  else if c =? "/" then Some "/"
  else if c =? "b" then Some "008"
  else if c =? "f" then Some "012"
  else if c =? "n" then Some "010"
  else if c =? "r" then Some "013"
  else if c =? "t" then Some "009"
  else None.

(** The low half of a surrogate pair that follows a high half [hi]. *)
Definition lowSurrogate (hi : N) (cs : list ascii) : option (N * list ascii) :=
  if (55296 <=? hi)%N && (hi <=? 56319)%N then
    match cs with
    | b :: u :: l1 :: l2 :: l3 :: l4 :: rest =>
        if (b =? "\") && (u =? "u") then
          match hex4 l1 l2 l3 l4 with
          | Some lo =>
              if (56320 <=? lo)%N && (lo <=? 57343)%N
              then Some (65536 + (hi - 55296) * 1024 + (lo - 56320), rest)%N
              else None
          | None => None
          end
        else None
    | _ => None
    end
  else None.

Fixpoint prepend (cs : list ascii) (s : string) : string :=
  match cs with
  | [] => s
  | c :: rest => String c (prepend rest s)
  end.

(** A string, after its opening quote. *)
Fixpoint parseChars (cs : list ascii) : option (string * list ascii) :=
  match cs with
  | [] => None
  | c :: rest =>
      if c =? "034" then Some (EmptyString, rest)
      else if c =? "\" then
        match rest with
        | e :: rest1 =>
            if e =? "u" then
              match rest1 with
              | h1 :: h2 :: h3 :: h4 :: rest2 =>
                  match hex4 h1 h2 h3 h4 with
                  | Some hi =>
                      match rest2 with
                      | b :: u :: l1 :: l2 :: l3 :: l4 :: rest3 =>
                          match lowSurrogate hi rest2 with
                          | Some (cp, _) =>
                              match parseChars rest3 with
                              | Some (s, r) => Some (prepend (utf8 cp) s, r)
                              | None => None
                              end
                          | None =>
                              match parseChars rest2 with
                              | Some (s, r) => Some (prepend (utf8 hi) s, r)
                              | None => None
                              end
                          end
                      | _ =>
                          match parseChars rest2 with
                          | Some (s, r) => Some (prepend (utf8 hi) s, r)
                          | None => None
                          end
                      end
                  | None => None
                  end
              | _ => None
              end
            else
              match unescape e, parseChars rest1 with
              | Some ch, Some (s, r) => Some (String ch s, r)
              | _, _ => None
              end
        | [] => None
        end
      else if (nat_of_ascii c <? 32)%nat then None
      else
        match parseChars rest with
        | Some (s, r) => Some (String c s, r)
        | None => None
        end
  end.

Fixpoint takeDigits (cs : list ascii) : list ascii * list ascii :=
  match cs with
  | c :: rest =>
      if isDigit c then let (ds, r) := takeDigits rest in (c :: ds, r)
      else ([], cs)
  | [] => ([], [])
  end.

(** A number: sign, integer part without leading zero, fraction, exponent. *)
Definition parseNumber (cs : list ascii) : option (string * list ascii) :=
  let (sign, cs1) :=
    match cs with
    | c :: r => if c =? "-" then ([c], r) else ([], cs)
    | [] => ([], [])
    end in
  let (int, cs2) := takeDigits cs1 in
  match int with
  | [] => None
  | d :: ds =>
      if (d =? "0") && negb (Nat.eqb (length ds) 0) then None
      else
        let frac :=
          match cs2 with
          | c :: r =>
              if c =? "." then
                let (fd, cs3) := takeDigits r in
                match fd with [] => None | _ => Some (c :: fd, cs3) end
              else Some ([], cs2)
          | [] => Some ([], [])
          end in
        match frac with
        | None => None
        | Some (fr, cs3) =>
            let exp :=
              match cs3 with
              | c :: r =>
                  if (c =? "e") || (c =? "E") then
                    let (sg, r1) :=
                      match r with
                      | g :: r' => if (g =? "+") || (g =? "-") then ([g], r') else ([], r)
                      | [] => ([], [])
                      end in
                    let (ed, cs4) := takeDigits r1 in
                    match ed with [] => None | _ => Some (c :: sg ++ ed, cs4) end
                  else Some ([], cs3)
              | [] => Some ([], [])
              end in
            match exp with
            | None => None
            | Some (ex, cs4) =>
                Some (prepend (sign ++ int ++ fr ++ ex) EmptyString, cs4)
            end
        end
  end.

(** The rest of a literal name. *)
Fixpoint keyword (name cs : list ascii) : option (list ascii) :=
  match name, cs with
  | [], _ => Some cs
  | n :: name', c :: cs' => if n =? c then keyword name' cs' else None
  | _ :: _, [] => None
  end.

(** A value; [fuel] bounds the nesting and the number of members. *)
Fixpoint parseValue (fuel : nat) (cs : list ascii) {struct fuel}
  : option (value * list ascii) :=
  match fuel with
  | 0 => None
  | S fuel' =>
      let fix members (n : nat) (cs : list ascii) (acc : props) {struct n}
        : option (value * list ascii) :=
        match n with
        | 0 => None
        | S n' =>
            match skipWhitespace cs with
            | q :: cs1 =>
                if q =? "034" then
                  match parseChars cs1 with
                  | Some (key, cs2) =>
                      match skipWhitespace cs2 with
                      | c :: cs3 =>
                          if c =? ":" then
                            match parseValue fuel' cs3 with
                            | Some (v, cs4) =>
                                match skipWhitespace cs4 with
                                | d :: cs5 =>
                                    if d =? "," then members n' cs5 (setProp key v acc)
                                    else if d =? "}" then Some (VObj (setProp key v acc), cs5)
                                    else None
                                | [] => None
                                end
                            | None => None
                            end
                          else None
                      | [] => None
                      end
                  | None => None
                  end
                else None
            | [] => None
            end
        end in
      let fix elements (n : nat) (cs : list ascii) (acc : list value) {struct n}
        : option (value * list ascii) :=
        match n with
        | 0 => None
        | S n' =>
            match parseValue fuel' cs with
            | Some (v, cs1) =>
                match skipWhitespace cs1 with
                | d :: cs2 =>
                    if d =? "," then elements n' cs2 (acc ++ [v])
                    else if d =? "]" then Some (VArr (acc ++ [v]), cs2)
                    else None
                | [] => None
                end
            | None => None
            end
        end in
      match skipWhitespace cs with
      | [] => None
      | c :: rest =>
          if c =? "{" then
            match skipWhitespace rest with
            | c' :: rest' =>
                if c' =? "}" then Some (VObj [], rest') else members fuel' rest []
            | [] => None
            end
          else if c =? "[" then
            match skipWhitespace rest with
            | c' :: rest' =>
                if c' =? "]" then Some (VArr [], rest') else elements fuel' rest []
            | [] => None
            end
          else if c =? "034" then
            match parseChars rest with
            | Some (s, r) => Some (VStr s, r)
            | None => None
            end
          else if c =? "t" then
            match keyword ["r"; "u"; "e"] rest with
            | Some r => Some (VBool true, r)
            | None => None
            end
          else if c =? "f" then
            match keyword ["a"; "l"; "s"; "e"] rest with
            | Some r => Some (VBool false, r)
            | None => None
            end
          else if c =? "n" then
            match keyword ["u"; "l"; "l"] rest with
            | Some r => Some (VNull, r)
            | None => None
            end
          else
            match parseNumber (c :: rest) with
            | Some (lit, r) => Some (VNum lit, r)
            | None => None
            end
      end
  end.

Definition parse (text : string) : option value :=
  let cs := list_ascii_of_string text in
  match parseValue (S (length cs)) cs with
  | Some (v, rest) =>
      match skipWhitespace rest with
      | [] => Some v
      | _ :: _ => None
      end
  | None => None
  end.

End JSON.

(** * [fetchJSON] *)

Module FetchJSON.

Import JS.

Local Open Scope string_scope.

(** What [response.clone().text()] settles with. *)
Inductive TextResult :=
| TextResolved (text : string)
| TextRejected (reason : value).

(** The part of a [Response] that [fetchJSON] reads: [ok], [status],
    [headers.get('content-type')] and the text of the body. *)
Record Response := {
  ok : bool;
  status : Z;
  contentType : option string;
  text : TextResult
}.

(** What the global [fetch] settles with. *)
Inductive FetchResult :=
| FetchResolved (response : Response)
| FetchRejected (reason : value).

(** What [fetchJSON] can reject with: a [ResponseErrorImpl], the [Error] of
    [tryParseJSON], or the reason [fetch] or [text()] rejected with. *)
Inductive Thrown :=
| ResponseError (status : Z) (response : Response) (body : value)
| Error (message : string)
| Reason (reason : value).

Inductive Result (A : Type) :=
| Return (a : A)
| Throw (e : Thrown).

Arguments Return {A} a.
Arguments Throw {A} e.

Record FetchJSONResponse := {
  response : Response;
  body : value
}.

(** One call of [fetchJSON]: the calls it made to [fetch], and its result. *)
Record Run := {
  fetched : list (value * value);
  outcome : Result FetchJSONResponse
}.

(** [s.includes(sub)] *)
Fixpoint includes (s sub : string) : bool :=
  if String.prefix sub s then true
  else
    match s with
    | EmptyString => false
    | String _ s' => includes s' sub
    end.

(** Line 44: [contentType?.includes('json') ?? false] *)
Definition isJSON (response : Response) : bool :=
  match contentType response with
  | Some contentType => includes contentType "json"
  | None => false
  end.

(** Lines 92-98 *)
Definition checkStatus (response : Response) (body : value)
  : Result FetchJSONResponse :=
  if ok response then Return {| response := response; body := body |}
  else Throw (ResponseError (status response) response body).

(** Lines 25-29, the first argument of [merge]. *)
Definition defaults : props :=
  [("headers", VObj [("Content-Type", VStr "application/json")])].

(** Lines 22-31; [None] when the call of [merge] leaves the fragment of
    [Lodash.merge]. *)
Definition fetchOptions (options : props) : option value :=
  match getProp "body" options with
  | VUndefined => Some (VObj options)
  | _ => VObj <$> Lodash.merge defaults options
  end.

Section Environment.

(** The built-in [JSON.parse] and the global [fetch]. *)
Variable JSON_parse : string -> option value.
Variable fetch : value -> value -> FetchResult.

(** Lines 57-67 *)
Definition tryParseJSON (json : string) : Result value :=
  if String.eqb json "" then Return VNull
  else
    match JSON_parse json with
    | Some parsed => Return parsed
    | None => Throw (Error ("Failed to parse unexpected JSON response: " ++ json))
    end.

(** Lines 42-52 *)
Definition getResponseBody (response : Response) : Result value :=
  if isJSON response then
    match text response with
    | TextResolved text => tryParseJSON text
    | TextRejected reason => Throw (Reason reason)
    end
  else
    match text response with
    | TextResolved text => Return (VStr text)
    | TextRejected reason => Throw (Reason reason)
    end.

(** Lines 17-37 *)
Definition fetchJSON (url : value) (options : props) : option Run :=
  match fetchOptions options with
  | None => None
  | Some fetchOptions =>
      Some {| fetched := [(url, fetchOptions)];
              outcome :=
                match fetch url fetchOptions with
                | FetchRejected reason => Throw (Reason reason)
                | FetchResolved response =>
                    match getResponseBody response with
                    | Throw e => Throw e
                    | Return body => checkStatus response body
                    end
                end |}
  end.

End Environment.

(** ** Options of type [RequestInit] *)

Fixpoint uniqueKeys (object : props) : bool :=
  match object with
  | [] => true
  | (k, _) :: rest => negb (hasKey k rest) && uniqueKeys rest
  end.

Definition isString (v : value) : bool :=
  match v with VStr _ => true | _ => false end.

(** [Record<string, string>] *)
Definition isHeaderRecord (v : value) : bool :=
  match v with
  | VObj headers => uniqueKeys headers && forallb (fun kv => isString (snd kv)) headers
  | _ => false
  end.

(** [[string, string][]] *)
Definition isHeaderPairs (v : value) : bool :=
  match v with
  | VArr rows =>
      forallb (fun row => match row with
                          | VArr [VStr _; VStr _] => true
                          | _ => false
                          end) rows
  | _ => false
  end.

(** [HeadersInit | undefined]: a [Headers] instance, a record, or pairs. *)
Definition isHeadersInit (v : value) : bool :=
  match v with
  | VUndefined | VInst _ => true
  | _ => isHeaderRecord v || isHeaderPairs v
  end.

(** The other members of a [RequestInit] are strings, booleans, [null],
    [undefined], typed arrays or instances ([AbortSignal], [FormData],
    [Blob], ...). *)
Definition isMember (key : string) (v : value) : bool :=
  match v with
  | VArr _ | VObj _ => false
  | VUndefined | VBytes _ _ | VInst _ => negb (protoKey key)
  | _ => true
  end.

Definition isRequestInit (options : props) : bool :=
  uniqueKeys options &&
  forallb (fun kv => if String.eqb (fst kv) "headers"
                     then isHeadersInit (snd kv)
                     else isMember (fst kv) (snd kv)) options.

(** What [merge] leaves in [headers] for a caller's [headers]. *)
Definition mergedHeaders (headers : value) (merged : value) : Prop :=
  match headers with
  | VUndefined => merged = VObj [("Content-Type", VStr "application/json")]
  | VObj supplied =>
      exists result, merged = VObj result /\
        forall name, getProp name result =
          if hasKey name supplied then getProp name supplied
          else getProp name [("Content-Type", VStr "application/json")]
  | _ => merged = headers
  end.

(** ** The inputs of [test/fetchJSON.spec.ts] *)

Definition getOptions : props := [("method", VStr "GET")].

Definition putOptions : props :=
  [("method", VStr "PUT");
   ("body", VStr "{id:1}");
   ("headers", VObj [("Authorization", VStr "Bearer token123");
                     ("X-Custom-Header", VStr "custom-value")])].

Definition emptyJSON : Response :=
  {| ok := true; status := 200; contentType := Some "application/json";
     text := TextResolved "" |}.

Definition invalidJSON : Response :=
  {| ok := true; status := 200; contentType := Some "application/json";
     text := TextResolved "{ invalid json }" |}.

Definition invalidJSONNotFound : Response :=
  {| ok := false; status := 404; contentType := Some "application/json";
     text := TextResolved "{ invalid json }" |}.

Definition notFound : Response :=
  {| ok := false; status := 404; contentType := Some "application/json";
     text := TextResolved "{}" |}.

(** A string literal of a JSON text. *)
Definition quoted (s : string) : string :=
  String "034" (s ++ String "034" EmptyString).

(** [JSON.stringify({ error: 'Not found', code: 404 })] *)
Definition errorBody : string :=
  "{" ++ quoted "error" ++ ":" ++ quoted "Not found" ++ ","
      ++ quoted "code" ++ ":404}".

Definition notFoundWithBody : Response :=
  {| ok := false; status := 404; contentType := Some "application/json";
     text := TextResolved errorBody |}.

Definition plainText : Response :=
  {| ok := true; status := 200; contentType := Some "text/plain";
     text := TextResolved "Plain text response" |}.

Definition charsetJSON : Response :=
  {| ok := true; status := 200;
     contentType := Some "application/json; charset=utf-8";
     text := TextResolved ("{" ++ quoted "message" ++ ":" ++ quoted "success" ++ "}") |}.

End FetchJSON.

(** * Values that [merge] copies as they are *)

Module Copy.

Import JS FetchJSON.

(** A value without duplicate keys and without a property that shadows a
    name of [Object.prototype] with [undefined] or with an object, at any
    depth. *)
Fixpoint clean (v : value) : bool :=
  match v with
  | VArr elems => forallb clean elems
  | VObj object =>
      uniqueKeys object &&
      forallb (fun kv =>
                 negb (protoKey (fst kv) && negb (isDefinedPrimitive (snd kv)))
                 && clean (snd kv)) object
  | _ => true
  end.


(** Not an object of any kind. *)
Definition notObject (v : value) : bool :=
  match v with
  | VArr _ | VObj _ | VBytes _ _ | VInst _ => false
  | _ => true
  end.

End Copy.

(** * Environment detection

    [src/environment.ts].  The functions read global identifiers, which a
    runtime may not declare at all: [typeof x] is safe on such an
    identifier, any other use of it throws a [ReferenceError].  An object of
    the host (the [navigator], the [process], the global object) is given by
    the properties that are read from it: a [VObj] lists them, and a value
    of another kind has none of the properties read here.  Reading a
    property of [undefined] or [null] throws a [TypeError].  The functions
    share the variable [cachedEnvironment]; they are functions of the
    globals and of that variable, into a result or a thrown error and the
    variable afterwards.  The object kept in the variable is the one handed
    to the callers; no function of the module writes to it. *)

Module Environment.

Import JS.

Local Open Scope string_scope.

(** A global identifier: not declared, or bound to a value. *)
Inductive Binding :=
| Undeclared
| Declared (v : value).

(** [require]: [None] when [typeof require] is ['undefined'], otherwise the
    module names [require.resolve] accepts (it throws on the others). *)
Record Globals := {
  navigator : Binding;
  global : Binding;
  process : Binding;
  window : Binding;
  document : Binding;
  localStorage : Binding;
  fetch : Binding;
  require : option (string -> bool)
}.

Record Environment := {
  isReactNative : bool;
  isNode : bool;
  isBrowser : bool;
  supportsMMKV : bool
}.

Inductive Thrown :=
| ReferenceError (name : string)
| TypeError.

Inductive Result (A : Type) :=
| Return (a : A)
| Throw (e : Thrown).

Arguments Return {A} a.
Arguments Throw {A} e.

Definition bind {A B : Type} (m : Result A) (k : A -> Result B) : Result B :=
  match m with
  | Return a => k a
  | Throw e => Throw e
  end.

(** [typeof x !== 'undefined'] *)
Definition typeofDefined (x : Binding) : bool :=
  match x with
  | Undeclared | Declared VUndefined => false
  | Declared _ => true
  end.

(** The value of the identifier [name]. *)
Definition lookup (name : string) (x : Binding) : Result value :=
  match x with
  | Undeclared => Throw (ReferenceError name)
  | Declared v => Return v
  end.

(** [v.key] *)
Definition member (v : value) (key : string) : Result value :=
  match v with
  | VUndefined | VNull => Throw TypeError
  | VObj object => Return (getProp key object)
  | _ => Return VUndefined
  end.

Definition isNullish (v : value) : bool :=
  match v with VUndefined | VNull => true | _ => false end.

Definition isDefined (v : value) : bool :=
  match v with VUndefined => false | _ => true end.

(** [v === 'text'] *)
Definition isStringLiteral (text : string) (v : value) : bool :=
  match v with VStr s => String.eqb s text | _ => false end.

(** Lines 34-51: the three ways React Native is recognised. *)
Definition detectReactNative (g : Globals) : Result bool :=
  bind (if typeofDefined (navigator g)
        then bind (lookup "navigator" (navigator g)) (fun nav =>
             bind (member nav "product") (fun product =>
             Return (isStringLiteral "ReactNative" product)))
        else Return false) (fun byNavigator =>
  if byNavigator then Return true
  else
    bind (if typeofDefined (global g)
          then bind (lookup "global" (global g)) (fun gl =>
               bind (member gl "HermesInternal") (fun hermes =>
               Return (isDefined hermes)))
          else Return false) (fun byHermes =>
    if byHermes then Return true
    else
      bind (lookup "global" (global g)) (fun gl =>
      bind (member gl "__DEV__") (fun dev =>
      if isDefined dev then Return true
      else if typeofDefined (global g)
           then bind (lookup "global" (global g)) (fun gl' =>
                bind (member gl' "__DEV__") (fun dev' =>
                Return (isDefined dev')))
           else Return false)))).

(** Line 55: [process?.versions?.node] *)
Definition nodeVersion (g : Globals) : Result value :=
  bind (lookup "process" (process g)) (fun proc =>
  if isNullish proc then Return VUndefined
  else
    bind (member proc "versions") (fun versions =>
    if isNullish versions then Return VUndefined
    else member versions "node")).

(** [require.resolve(name)] returns, inside a [try]. *)
Definition resolves (g : Globals) (name : string) : bool :=
  match require g with
  | Some accepted => accepted name
  | None => false
  end.

(** Lines 26-89: the detection proper. *)
Definition detect (g : Globals) : Result Environment :=
  bind (detectReactNative g) (fun reactNative =>
  bind (nodeVersion g) (fun node =>
  Return {| isReactNative := reactNative;
            isNode := isDefined node && negb reactNative;
            isBrowser := typeofDefined (window g) && typeofDefined (document g)
                         && negb reactNative;
            supportsMMKV := if reactNative then resolves g "react-native-mmkv"
                            else false |})).

Definition Cache := option Environment.

(** Lines 20-95 *)
Definition detectEnvironment (g : Globals) (cachedEnvironment : Cache)
  : Result Environment * Cache :=
  match cachedEnvironment with
  | Some env => (Return env, cachedEnvironment)
  | None =>
      match detect g with
      | Return env => (Return env, Some env)
      | Throw e => (Throw e, None)
      end
  end.

(** Lines 101-103 *)
Definition clearEnvironmentCache (cachedEnvironment : Cache) : Cache := None.

Definition platformOf (env : Environment) : string :=
  if isReactNative env then "react-native"
  else if isNode env then "node"
  else if isBrowser env then "browser"
  else "unknown".

(** Lines 116-124 *)
Definition getPlatform (g : Globals) (cachedEnvironment : Cache)
  : Result string * Cache :=
  match detectEnvironment g cachedEnvironment with
  | (Return env, cache) => (Return (platformOf env), cache)
  | (Throw e, cache) => (Throw e, cache)
  end.

Record StorageCapabilities := {
  hasLocalStorage : bool;
  hasAsyncStorage : bool;
  hasMMKV : bool;
  hasSecureStore : bool
}.

Definition capabilitiesOf (g : Globals) (env : Environment) : StorageCapabilities :=
  {| hasLocalStorage :=
       if isBrowser env then typeofDefined (localStorage g) else false;
     hasAsyncStorage :=
       if isReactNative env
       then resolves g "@react-native-async-storage/async-storage"
            || resolves g "react-native"
       else false;
     hasMMKV := if isReactNative env then supportsMMKV env else false;
     hasSecureStore :=
       if isReactNative env then resolves g "expo-secure-store" else false |}.

(** Lines 139-190 *)
Definition detectStorageCapabilities (g : Globals) (cachedEnvironment : Cache)
  : Result StorageCapabilities * Cache :=
  match detectEnvironment g cachedEnvironment with
  | (Return env, cache) => (Return (capabilitiesOf g env), cache)
  | (Throw e, cache) => (Throw e, cache)
  end.

Record FetchSupport := {
  isSupported : bool;
  polyfillNeeded : bool;
  recommendations : list string
}.

(** Lines 195-228 *)
Definition validateFetchSupport (g : Globals) (cachedEnvironment : Cache)
  : Result FetchSupport * Cache :=
  if typeofDefined (fetch g) then
    (Return {| isSupported := true; polyfillNeeded := false;
               recommendations := [] |}, cachedEnvironment)
  else
    match detectEnvironment g cachedEnvironment with
    | (Return env, cache) =>
        (Return {| isSupported := false; polyfillNeeded := true;
                   recommendations :=
                     if isNode env then
                       ["Install node-fetch: npm install node-fetch";
                        "Or use Node.js 18+ which has built-in fetch"]
                     else if isReactNative env then
                       ["React Native should have fetch built-in";
                        "Check React Native version (0.60+ recommended)"]
                     else
                       ["Install a fetch polyfill for older browsers";
                        "Consider using whatwg-fetch polyfill"] |}, cache)
    | (Throw e, cache) => (Throw e, cache)
    end.

Record Recommendations := {
  platform : string;
  storageAdapter : string;
  features : list string;
  optimizations : list string
}.

(** Lines 242-280, for the environment and the capabilities found. *)
Definition recommend (env : Environment) (storage : StorageCapabilities)
  : string * list string * list string :=
  if isReactNative env then
    let '(storageAdapter, features, optimizations) :=
      if hasMMKV storage then
        ("mmkv",
         ["Fast synchronous storage"; "Built-in encryption support"],
         ["Use MMKV for token storage"])
      else if hasAsyncStorage storage then
        ("asyncstorage",
         ["Persistent storage"],
         ["Consider upgrading to MMKV for better performance"])
      else ("memory", [], []) in
    let '(features, optimizations) :=
      if hasSecureStore storage then
        ((features ++ ["Secure credential storage (Expo)"])%list,
         (optimizations ++ ["Use SecureStore for sensitive data in Expo apps"])%list)
      else (features, optimizations) in
    (storageAdapter, features,
     (optimizations ++
        ["Enable proactive refresh to prevent UI blocking";
         "Use background app state detection for token refresh"])%list)
  else if isBrowser env then
    let '(storageAdapter, features, optimizations) :=
      if hasLocalStorage storage then
        ("localstorage",
         ["Browser persistent storage"],
         ["Use localStorage for token persistence";
          "Consider sessionStorage for temporary tokens"])
      else ("memory", [], []) in
    (storageAdapter, features,
     (optimizations ++
        ["Use Web Workers for background token refresh";
         "Implement visibility API for tab focus handling"])%list)
  else if isNode env then
    ("filesystem",
     ["File system storage"],
     ["Use secure file permissions for token storage";
      "Consider Redis for distributed applications"])
  else ("memory", [], []).

(** Lines 233-288 *)
Definition getEnvironmentRecommendations (g : Globals) (cachedEnvironment : Cache)
  : Result Recommendations * Cache :=
  match detectEnvironment g cachedEnvironment with
  | (Throw e, cache) => (Throw e, cache)
  | (Return env, cache) =>
      match detectStorageCapabilities g cache with
      | (Throw e, cache') => (Throw e, cache')
      | (Return storage, cache') =>
          let '(storageAdapter, features, optimizations) := recommend env storage in
          match getPlatform g cache' with
          | (Throw e, cache'') => (Throw e, cache'')
          | (Return platform, cache'') =>
              (Return {| platform := platform;
                         storageAdapter := storageAdapter;
                         features := features;
                         optimizations := optimizations |}, cache'')
          end
      end
  end.

(** ** Any use of the module *)

Inductive Call :=
| CallDetectEnvironment (g : Globals)
| CallClearEnvironmentCache
| CallGetPlatform (g : Globals)
| CallDetectStorageCapabilities (g : Globals)
| CallValidateFetchSupport (g : Globals)
| CallGetEnvironmentRecommendations (g : Globals).

(** The variable [cachedEnvironment] after a call. *)
Definition after (cachedEnvironment : Cache) (call : Call) : Cache :=
  match call with
  | CallDetectEnvironment g => snd (detectEnvironment g cachedEnvironment)
  | CallClearEnvironmentCache => clearEnvironmentCache cachedEnvironment
  | CallGetPlatform g => snd (getPlatform g cachedEnvironment)
  | CallDetectStorageCapabilities g =>
      snd (detectStorageCapabilities g cachedEnvironment)
  | CallValidateFetchSupport g => snd (validateFetchSupport g cachedEnvironment)
  | CallGetEnvironmentRecommendations g =>
      snd (getEnvironmentRecommendations g cachedEnvironment)
  end.

(** The variable after a sequence of calls, from the module's load. *)
Definition cacheAfter (calls : list Call) : Cache := fold_left after calls None.

(** [navigator.product === 'ReactNative'], where it can be evaluated. *)
Definition reactNativeNavigator (g : Globals) : bool :=
  match navigator g with
  | Declared (VObj object) => isStringLiteral "ReactNative" (getProp "product" object)
  | _ => false
  end.

(** What the detection keeps between its flags. *)
Definition Consistent (env : Environment) : Prop :=
  (isReactNative env = true -> isNode env = false /\ isBrowser env = false) /\
  (supportsMMKV env = true -> isReactNative env = true).

(** A runtime like jsdom on Node.js: a [process] with a version and a
    [window] with a [document] and a [localStorage]. *)
Definition jsdom : Globals :=
  {| navigator := Declared (VObj [("product", VStr "Gecko")]);
     global := Declared (VObj []);
     process := Declared (VObj [("versions", VObj [("node", VStr "18.0.0")])]);
     window := Declared (VObj []);
     document := Declared (VObj []);
     localStorage := Declared (VObj []);
     fetch := Declared (VInst 0);
     require := Some (fun _ => false) |}.

(** A browser: no [global], no [process], no [require]. *)
Definition browser : Globals :=
  {| navigator := Declared (VObj [("product", VStr "Gecko")]);
     global := Undeclared;
     process := Undeclared;
     window := Declared (VObj []);
     document := Declared (VObj []);
     localStorage := Declared (VObj []);
     fetch := Declared (VInst 0);
     require := None |}.

(** React Native with MMKV installed and no [fetch]. *)
Definition reactNative : Globals :=
  {| navigator := Declared (VObj [("product", VStr "ReactNative")]);
     global := Declared (VObj [("__DEV__", VBool true)]);
     process := Declared (VObj [("env", VObj [])]);
     window := Declared (VObj []);
     document := Undeclared;
     localStorage := Undeclared;
     fetch := Undeclared;
     require := Some (fun name => String.eqb name "react-native-mmkv") |}.

End Environment.

(** * The React Native managers

    [src/platforms/react-native.ts].  The two managers keep a list of
    listeners and a current state, and tell the listeners when the state
    changes.  A listener is a function, known by its identity.  While it
    runs it may call the manager back, through [addListener], through the
    functions [addListener] returned and through [destroy], and it may
    throw, which the manager catches and reports on the console.  It does
    not call the methods that are private to the manager, and does not
    write to the state it is given.  The listeners are told by
    [Array.prototype.forEach], which takes the length of the array when it
    starts, and then reads the array, as it is by then, at each index below
    that length.  The set-up of a manager, which asks the host for its
    modules, is left out: the theorems hold from any list of listeners and
    any state. *)

Module ReactNative.

Section Listeners.

Context {Listener State : Type} `{EqDecision Listener}.

(** What a listener asks of the manager while it runs: [addListener], a
    function that [addListener] returned for a listener, or [destroy]. *)
Inductive Request :=
| AddListener (listener : Listener)
| Unsubscribe (listener : Listener)
| Destroy.

(** What a call of a listener does: the requests it makes, in order, and
    whether it throws in the end. *)
Record Reaction := {
  requests : list Request;
  throws : bool
}.

(** [listener(state)] *)
Variable react : Listener -> State -> Reaction.

(** What a manager does to the outside. *)
Inductive Effect :=
| Called (listener : Listener) (state : State)
| ConsoleError (listener : Listener) (state : State).

(** [listeners.push(listener)] *)
Definition addListener (listener : Listener) (listeners : list Listener)
  : list Listener :=
  listeners ++ [listener].

(** [listeners.indexOf(listener)] *)
Fixpoint indexOf (listener : Listener) (listeners : list Listener) : option nat :=
  match listeners with
  | [] => None
  | first :: rest =>
      if decide (first = listener) then Some 0
      else option_map S (indexOf listener rest)
  end.

(** The function [addListener] returns. *)
Definition unsubscribe (listener : Listener) (listeners : list Listener)
  : list Listener :=
  match indexOf listener listeners with
  | Some index => delete index listeners
  | None => listeners
  end.

(** The array [forEach] walks, and the array that is in [this.listeners]
    when [destroy] has put a new one there during the walk. *)
Record Arrays := {
  walked : list Listener;
  replacement : option (list Listener)
}.

(** [this.listeners] *)
Definition current (arrays : Arrays) : list Listener :=
  match replacement arrays with
  | Some listeners => listeners
  | None => walked arrays
  end.

(** A change of the array in [this.listeners]. *)
Definition change (f : list Listener -> list Listener) (arrays : Arrays)
  : Arrays :=
  match replacement arrays with
  | Some listeners =>
      {| walked := walked arrays; replacement := Some (f listeners) |}
  | None => {| walked := f (walked arrays); replacement := None |}
  end.

Definition serve (arrays : Arrays) (request : Request) : Arrays :=
  match request with
  | AddListener listener => change (addListener listener) arrays
  | Unsubscribe listener => change (unsubscribe listener) arrays
  | Destroy => {| walked := walked arrays; replacement := Some [] |}
  end.

(** The loop of [forEach] from [index], with [remaining] indices to go,
    around the [try] of [notifyListeners]. *)
Fixpoint forEach (remaining index : nat) (state : State) (arrays : Arrays)
  : Arrays * list Effect :=
  match remaining with
  | 0 => (arrays, [])
  | S remaining' =>
      match walked arrays !! index with
      | None => forEach remaining' (S index) state arrays
      | Some listener =>
          let reaction := react listener state in
          let '(arrays', effects) :=
            forEach remaining' (S index) state
              (fold_left serve (requests reaction) arrays) in
          (arrays',
           Called listener state ::
           (if throws reaction then [ConsoleError listener state] else [])
           ++ effects)
      end
  end.

(** [notifyListeners]: the listeners afterwards, and what was done. *)
Definition notifyListeners (listeners : list Listener) (state : State)
  : list Listener * list Effect :=
  let '(arrays, effects) :=
    forEach (length listeners) 0 state
      {| walked := listeners; replacement := None |} in
  (current arrays, effects).

(** The states a listener has been called with, in order. *)
Fixpoint received (listener : Listener) (effects : list Effect) : list State :=
  match effects with
  | [] => []
  | Called listener' state :: rest =>
      if decide (listener' = listener) then state :: received listener rest
      else received listener rest
  | ConsoleError _ _ :: rest => received listener rest
  end.

(** How many times a listener is in the list. *)
Definition registrations (listener : Listener) (listeners : list Listener) : nat :=
  length (filter (fun listener' => listener' = listener) listeners).

End Listeners.

Arguments Request : clear implicits.
Arguments Reaction : clear implicits.
Arguments Effect : clear implicits.
Arguments Arrays : clear implicits.

(** ** [ReactNativeAppStateManager] *)

Module AppState.

Section Manager.

Context {Listener : Type} `{EqDecision Listener}.

Variable react : Listener -> string -> Reaction Listener.

Record Manager := {
  listeners : list Listener;
  currentState : string
}.

(** Lines 67-72 *)
Definition handleAppStateChange (m : Manager) (nextAppState : string)
  : Manager * list (Effect Listener string) :=
  if negb (String.eqb nextAppState (currentState m)) then
    let '(listeners', effects) :=
      notifyListeners react (listeners m) nextAppState in
    ({| listeners := listeners'; currentState := nextAppState |}, effects)
  else (m, []).

(** The manager through a series of changes of the application's state. *)
Fixpoint handleAll (m : Manager) (changes : list string)
  : Manager * list (Effect Listener string) :=
  match changes with
  | [] => (m, [])
  | nextAppState :: rest =>
      let '(m', effects) := handleAppStateChange m nextAppState in
      let '(m'', effects') := handleAll m' rest in
      (m'', effects ++ effects')
  end.

Definition getCurrentState (m : Manager) : string := currentState m.

Definition isInForeground (m : Manager) : bool :=
  String.eqb (currentState m) "active".

Definition isInBackground (m : Manager) : bool :=
  String.eqb (currentState m) "background".

End Manager.

Arguments Manager : clear implicits.

End AppState.

(** ** [ReactNativeNetworkManager]

    The state NetInfo hands over has the fields of its type: a boolean or
    [null] for [isConnected] and [isInternetReachable], a string for
    [type]; a field may also be missing.  [None] is [null] or
    [undefined]. *)

Module Network.


Record NetworkState := {
  isConnected : bool;
  connectionType : string;
  isInternetReachable : option bool
}.



Section Manager.

Context {Listener : Type} `{EqDecision Listener}.

Variable react : Listener -> NetworkState -> Reaction Listener.

Record Manager := {
  listeners : list Listener;
  currentState : NetworkState
}.



End Manager.

Arguments Manager : clear implicits.

End Network.

End ReactNative.

(** * The coordinator: proofs *)

Module RefreshFetchSpec.

Import Coordinator.

Section Proofs.

Context {Url Opts Val : Type}.
Variable shouldRefreshToken : Val -> bool.
Variable refreshTokenThrows : nat -> option Val.

Local Abbreviation State := (@State Url Opts Val).
Local Abbreviation Call := (@Call Url Opts Val).
Local Abbreviation Action := (@Action Url Opts Val).
Local Abbreviation init := (@init Url Opts Val).
Local Abbreviation installed := (@installed Val refreshTokenThrows).
Local Abbreviation step := (@step Url Opts Val shouldRefreshToken refreshTokenThrows).
Local Abbreviation run := (@run Url Opts Val shouldRefreshToken refreshTokenThrows).
Local Abbreviation reachable :=
  (@reachable Url Opts Val shouldRefreshToken refreshTokenThrows).
Local Abbreviation callOk := (@callOk Url Opts Val shouldRefreshToken).
Local Abbreviation handleOk := (@handleOk Url Opts Val refreshTokenThrows).
Local Abbreviation HandleChange := (@HandleChange Url Opts Val refreshTokenThrows).
Local Abbreviation Inv := (@Inv Url Opts Val shouldRefreshToken refreshTokenThrows).
Local Abbreviation FanIn := (@FanIn Url Opts Val refreshTokenThrows).

Implicit Types (s : State) (c : Call) (a : Action).

(** ** Schedules *)

Lemma run_app s acts1 acts2 :
  run s (acts1 ++ acts2) =
  match run s acts1 with Some s' => run s' acts2 | None => None end.
Proof.
  revert s. induction acts1 as [|a acts1 IH]; intros s; simpl; [done|].
  destruct (step s a); [apply IH | done].
Qed.

Lemma run_snoc s acts a s' :
  run s (acts ++ [a]) = Some s' <->
  exists s1, run s acts = Some s1 /\ step s1 a = Some s'.
Proof.
  rewrite run_app. destruct (run s acts) as [s1|]; simpl.
  - destruct (step s1 a) eqn:E; split.
    + intros [= <-]. eauto.
    + intros (s2 & [= <-] & H). congruence.
    + done.
    + intros (s2 & [= <-] & H). congruence.
  - split; [done | intros (? & ? & _); done].
Qed.

Lemma reachable_init : reachable init.
Proof. by exists []. Qed.

Lemma reachable_step s a s' :
  reachable s -> step s a = Some s' -> reachable s'.
Proof.
  intros [acts Hacts] Hstep. exists (acts ++ [a]).
  apply run_snoc. eauto.
Qed.

Lemma reachable_run s acts s' :
  reachable s -> run s acts = Some s' -> reachable s'.
Proof.
  revert s. induction acts as [|a acts IH]; intros s Hs; simpl.
  - by intros [= <-].
  - destruct (step s a) as [s1|] eqn:E; [|done].
    intros. eapply IH; [|done]. by eapply reachable_step.
Qed.

(** ** The shape of an invocation is preserved *)

Ltac shape := simpl; first
  [ apply ShFetch | apply ShPass | apply ShRethrow | apply ShRefresh
  | apply ShRetry | apply ShRetried | apply ShRetryFailed
  | apply ShRefreshFailed | apply ShBystander | apply ShBystanderFetch
  | apply ShBystanderDone | apply ShBystanderAgain
  | apply ShBystanderAgainDone | apply ShBystanderCatch
  | apply ShBystanderCatchDone ]; try done.

Lemma callOk_invoke s u o :
  callOk (match refreshingTokenPromise s with
          | Some p => {| url := u; options := o; pc := WaitRefreshBystander p;
                         hist := [EvEnter (Some p)] |}
          | None => {| url := u; options := o; pc := WaitFetch;
                       hist := [EvEnter None; EvFetch u o] |}
          end).
Proof. destruct (refreshingTokenPromise s); unfold Coordinator.callOk; shape. Qed.

(** Every transition rewrites at most one invocation, into one that is
    again on a path of the source. *)
Lemma step_calls s a s' :
  Forall callOk (calls s) -> step s a = Some s' -> Forall callOk (calls s').
Proof.
  intros Hall Hstep. destruct a as [u o|i r|r|i]; simpl in Hstep.
  - injection Hstep as <-. simpl. apply Forall_app. split; [done|].
    apply Forall_singleton, callOk_invoke.
  - unfold fetchSettles in Hstep.
    destruct (calls s !! i) as [c|] eqn:Hc; [|done].
    assert (Hok : callOk c) by (eapply Forall_lookup_1; eauto).
    destruct c as [u o k h]. unfold Coordinator.callOk in Hok. simpl in *.
    inversion Hok; subst; destruct r as [v'|e'];
      try discriminate;
      repeat match type of Hstep with
             | context [shouldRefreshToken ?e] =>
                 destruct (shouldRefreshToken e) eqn:?
             | context [refreshingTokenPromise ?s] =>
                 destruct (refreshingTokenPromise s) eqn:?
             end;
      injection Hstep as <-; simpl;
      apply Forall_insert; try done;
      unfold Coordinator.callOk, advance; simpl.
    all: try (shape; fail).
    all: try (rewrite <- ?app_assoc; simpl; shape; fail).
    + apply (ShRefresh _ _ _ _ _ false). done.
    + apply (ShRefresh _ _ _ _ _ true). done.
  - unfold refreshSettles in Hstep.
    destruct (refreshingTokenPromise s) as [p|]; [|done].
    destruct (promises s !! p) as [[?|]|]; try done. by injection Hstep as <-.
  - unfold resume in Hstep.
    destruct (calls s !! i) as [c|] eqn:Hc; [|done].
    assert (Hok : callOk c) by (eapply Forall_lookup_1; eauto).
    destruct c as [u o k h]. unfold Coordinator.callOk in Hok. simpl in *.
    inversion Hok; subst; try discriminate;
      destruct (promises s !! p) as [[[|re']|]|]; try discriminate;
      injection Hstep as <-; simpl;
      apply Forall_insert; try done;
      unfold Coordinator.callOk, advance; simpl.
    all: rewrite <- ?app_assoc; shape.
Qed.

(** ** The handle and the promises *)

Lemma step_handle_change s a s' : step s a = Some s' -> HandleChange s s'.
Proof.
  intros Hstep. destruct a as [u o|i r|r|i]; simpl in Hstep.
  - injection Hstep as <-. by apply HcSame.
  - unfold fetchSettles in Hstep.
    destruct (calls s !! i) as [c|]; [|done].
    destruct (pc c), r; try discriminate;
      repeat match type of Hstep with
             | context [shouldRefreshToken ?e] =>
                 destruct (shouldRefreshToken e) eqn:?
             | context [refreshingTokenPromise ?s] =>
                 destruct (refreshingTokenPromise s) eqn:?
             end;
      injection Hstep as <-; first [by apply HcSame | by apply HcInstall].
  - unfold refreshSettles in Hstep.
    destruct (refreshingTokenPromise s) as [p|] eqn:Hp; [|done].
    destruct (promises s !! p) as [[?|]|] eqn:Hq; try done.
    injection Hstep as <-. by apply (HcReset _ _ _ p r).
  - unfold resume in Hstep.
    destruct (calls s !! i) as [c|]; [|done].
    destruct (pc c); try discriminate;
      destruct (promises s !! p) as [[[|re]|]|]; try discriminate;
      injection Hstep as <-; by apply HcSame.
Qed.

Lemma step_handleOk s a s' :
  handleOk s -> step s a = Some s' -> handleOk s'.
Proof.
  intros [Hpend Hheld] Hstep.
  destruct (step_handle_change _ _ _ Hstep) as
    [Hh Hp _|Hn Hh Hp _|p r Hsome Hq Hh Hp _ _];
    unfold Coordinator.handleOk; rewrite Hh, Hp.
  - done.
  - split.
    + intros q Hq. destruct (decide (q < length (promises s))) as [Hlt|Hge].
      * rewrite lookup_app_l in Hq by done. apply Hpend in Hq. congruence.
      * apply lookup_lt_Some in Hq as Hlt. rewrite length_app in Hlt.
        simpl in Hlt. f_equal. lia.
    + intros q [= <-]. rewrite lookup_app_r by lia. rewrite Nat.sub_diag.
      simpl. unfold Coordinator.installed.
      destruct (refreshTokenThrows (refreshTokenCalls s)) eqn:E;
        [right; eauto | by left].
  - split; [|done]. intros q Hq'. exfalso.
    destruct (decide (q = p)) as [->|Hne].
    + rewrite list_lookup_insert_eq in Hq' by (by eapply lookup_lt_Some).
      done.
    + rewrite list_lookup_insert_ne in Hq' by done.
      apply Hpend in Hq'. congruence.
Qed.

Lemma step_count s a s' :
  refreshTokenCalls s = length (promises s) ->
  step s a = Some s' ->
  refreshTokenCalls s' = length (promises s').
Proof.
  intros Hc Hstep.
  destruct (step_handle_change _ _ _ Hstep) as
    [_ Hp Hn|_ _ Hp Hn|p r _ _ _ Hp Hn _]; rewrite Hp, Hn, Hc.
  - done.
  - rewrite length_app. simpl. lia.
  - by rewrite length_insert.
Qed.

Lemma Inv_init : Inv init.
Proof.
  split; simpl; [by apply Forall_nil | | done].
  split; intros q; simpl; [by rewrite lookup_nil | done].
Qed.

Lemma Inv_step s a s' : Inv s -> step s a = Some s' -> Inv s'.
Proof.
  intros [Hc Hh Hn] Hstep. split.
  - by eapply step_calls.
  - by eapply step_handleOk.
  - by eapply step_count.
Qed.

Lemma Inv_run s acts s' : Inv s -> run s acts = Some s' -> Inv s'.
Proof.
  revert s. induction acts as [|a acts IH]; intros s Hs; simpl.
  - by intros [= <-].
  - destruct (step s a) as [s1|] eqn:E; [|done].
    apply IH. by eapply Inv_step.
Qed.

Lemma Inv_reachable s : reachable s -> Inv s.
Proof. intros [acts Hrun]. eapply Inv_run; [apply Inv_init | done]. Qed.

Lemma reachable_callOk s i c :
  reachable s -> calls s !! i = Some c -> callOk c.
Proof.
  intros Hs Hc. apply Inv_reachable in Hs as [Hall _ _].
  eapply Forall_lookup_1; eauto.
Qed.

(** ** One invocation, from its history *)

Lemma lookup_setCall s i c c' :
  calls s !! i = Some c -> calls (setCall s i c') !! i = Some c'.
Proof.
  intros Hc. simpl. apply list_lookup_insert_eq. by eapply lookup_lt_Some.
Qed.

(** Case analysis on the path an invocation of a reachable state is on. *)
Ltac on_path Hs Hc :=
  let Hok := fresh "Hok" in
  pose proof (reachable_callOk _ _ _ Hs Hc) as Hok;
  match type of Hc with
  | _ !! _ = Some ?c =>
      let b := fresh "b" in
      destruct c as [? ? ? ?]; unfold Coordinator.callOk, enteredWith in *;
      simpl in *; inversion Hok as
        [ | ? | ? ? | ? ? b ? | ? ? b ? | ? ? b ? ? | ? ? b ? ? | ? ? b ? ?
        | ? | ? | ? ? | ? ? | ? ? ? | ? ? | ? ? ? ];
      subst; try destruct b; simpl in *; simplify_eq
  end.

(** The transport call that is awaited at line 26 settles the invocation
    with its outcome, whatever the outcome. *)
Ltac settle Hc :=
  simpl; unfold fetchSettles; rewrite Hc; simpl;
  eexists; eexists; (split; [reflexivity|]);
  (split; [by eapply lookup_setCall|]); simpl; done.

(** C6 (pass-through): an invocation whose transport call succeeds
    returns exactly the transport's success value, and the transport is
    called exactly once in that invocation, with the invocation's own
    arguments.  This is so of an invocation that has seen its first
    transport call succeed; and an invocation that awaits its first
    transport call, at line 31, at line 22 or at line 26, does settle with
    the value [v], and has called the transport once, when that call
    resolves with [v]. *)
Theorem pass_through s i c :
  reachable s ->
  calls s !! i = Some c ->
  (forall v, head (fetchOutcomes (hist c)) = Some (Resolved v) ->
     pc c = Settled (Resolved v) /\
     fetchesOf (hist c) = [(url c, options c)]) /\
  (fetchOutcomes (hist c) = [] -> fetchesOf (hist c) <> [] ->
     fetchesOf (hist c) = [(url c, options c)] /\
     forall v, exists s' c',
       step s (FetchSettles i (Resolved v)) = Some s' /\
       calls s' !! i = Some c' /\
       pc c' = Settled (Resolved v) /\
       fetchesOf (hist c') = [(url c, options c)] /\
       fetchOutcomes (hist c') = [Resolved v]).
Proof.
  intros Hs Hc. split.
  - intros v Hv. on_path Hs Hc; done.
  - intros Hnone Hsome. on_path Hs Hc; try done;
      (split; [done|]); intros v'; settle Hc.
Qed.


(** C3 (original-error precedence): when the first transport attempt
    fails with an auth-classified error [E] and the refresh this
    invocation awaits fails, the invocation rejects with [E], whatever the
    refresh failed with, and issues no further transport call. *)
Theorem original_error_on_refresh_failure s i c E re :
  reachable s ->
  calls s !! i = Some c ->
  enteredWith c = Some None ->
  head (fetchOutcomes (hist c)) = Some (Rejected E) ->
  shouldRefreshToken E = true ->
  awaitedOf (hist c) = [RefreshFailed re] ->
  pc c = Settled (Rejected E) /\
  fetchesOf (hist c) = [(url c, options c)].
Proof. intros Hs Hc He HE Hp Hre. on_path Hs Hc; done || congruence. Qed.

(** C4 (bystander isolation): an invocation that began while a handle
    was pending and saw that refresh fail has issued one transport call,
    with its own url and options, and no other.  It awaits that call, and
    then the call's outcome, a success or a failure, is what the invocation
    settles with; or it has settled, with the outcome of that call. *)
Theorem bystander_isolation s i c p re :
  reachable s ->
  calls s !! i = Some c ->
  enteredWith c = Some (Some p) ->
  awaitedOf (hist c) = [RefreshFailed re] ->
  fetchesOf (hist c) = [(url c, options c)] /\
  match pc c with
  | WaitFetchBystanderCatch =>
      fetchOutcomes (hist c) = [] /\
      forall r, exists s' c',
        step s (FetchSettles i r) = Some s' /\
        calls s' !! i = Some c' /\
        pc c' = Settled r /\
        fetchesOf (hist c') = [(url c, options c)] /\
        fetchOutcomes (hist c') = [r]
  | Settled r => fetchOutcomes (hist c) = [r]
  | _ => False
  end.
Proof.
  intros Hs Hc He Hre. on_path Hs Hc; (split; [done|]); try done.
  split; [done|]. intros [v|e]; settle Hc.
Qed.

(** An invocation that began while a handle was pending never calls
    [shouldRefreshToken] (nor [refreshToken]); what it settles with is the
    outcome of the last transport call it issued, unclassified. *)
Lemma bystander_never_classifies s i c p :
  reachable s ->
  calls s !! i = Some c ->
  enteredWith c = Some (Some p) ->
  shouldRefreshArgs (hist c) = [] /\
  refreshesOf (hist c) = [] /\
  (forall r, pc c = Settled r -> last (fetchOutcomes (hist c)) = Some r).
Proof.
  intros Hs Hc He. on_path Hs Hc; (split; [done|]); (split; [done|]);
    intros r' Hr'; simplify_eq; done.
Qed.


(** ** The handle over time *)

(** The call to [refreshToken] and the install of the handle are one
    transition: there is no [await] between line 36 and line 48. *)
Lemma install_atomic s a s' :
  step s a = Some s' ->
  (refreshTokenCalls s' <> refreshTokenCalls s \/
   (refreshingTokenPromise s = None /\ refreshingTokenPromise s' <> None)) ->
  refreshingTokenPromise s = None /\
  refreshingTokenPromise s' = Some (length (promises s)) /\
  promises s' = promises s ++ [installed (refreshTokenCalls s)] /\
  refreshTokenCalls s' = S (refreshTokenCalls s).
Proof.
  intros Hstep Hch.
  destruct (step_handle_change _ _ _ Hstep) as
    [Hh Hp Hn|Hnone Hh Hp Hn|p r Hsome Hq Hh Hp Hn _].
  - destruct Hch as [Hch|[Hch1 Hch2]]; congruence.
  - done.
  - destruct Hch as [Hch|[Hch1 Hch2]]; congruence.
Qed.

(** The handle in every reachable state: at most one handle promise is
    unsettled, and it is the one in [refreshingTokenPromise]; the promise
    in the variable is unsettled, unless it was rejected as it was made;
    there is one promise for each call to [refreshToken], installed in the
    transition that makes the call; when the promise [refreshToken]
    returned settles, with either result, the variable is reset in that
    transition, in which no invocation moves; and an invocation resumes
    only when the handle it awaits has settled. *)
Lemma pending_handle_invariant s :
  reachable s ->
  (forall p q, promises s !! p = Some None -> promises s !! q = Some None ->
     p = q) /\
  (forall p, promises s !! p = Some None -> refreshingTokenPromise s = Some p) /\
  (forall p, refreshingTokenPromise s = Some p ->
     promises s !! p = Some None \/
     exists n thrown,
       refreshTokenThrows n = Some thrown /\
       promises s !! p = Some (Some (RefreshFailed thrown))) /\
  refreshTokenCalls s = length (promises s) /\
  (forall a s', step s a = Some s' ->
     refreshTokenCalls s' <> refreshTokenCalls s \/
     (refreshingTokenPromise s = None /\ refreshingTokenPromise s' <> None) ->
     refreshingTokenPromise s = None /\
     refreshingTokenPromise s' = Some (length (promises s)) /\
     promises s' = promises s ++ [installed (refreshTokenCalls s)] /\
     refreshTokenCalls s' = S (refreshTokenCalls s)) /\
  (forall p r, promises s !! p = Some None ->
     exists s', step s (RefreshSettles r) = Some s' /\
       refreshingTokenPromise s' = None /\
       promises s' !! p = Some (Some r) /\
       calls s' = calls s) /\
  (forall i c p s', calls s !! i = Some c -> awaits c = Some p ->
     step s (Resume i) = Some s' ->
     exists r, promises s !! p = Some (Some r)).
Proof.
  intros Hs. destruct (Inv_reachable _ Hs) as [_ [Hpend Hheld] Hn].
  split; [|split; [|split; [|split; [|split; [|split]]]]].
  - intros p q Hp Hq. apply Hpend in Hp, Hq. congruence.
  - exact Hpend.
  - exact Hheld.
  - done.
  - intros a s'. apply install_atomic.
  - intros p r Hp. simpl. unfold refreshSettles.
    rewrite (Hpend p Hp), Hp.
    eexists. split; [done|]. simpl. split; [done|]. split; [|done].
    apply list_lookup_insert_eq. by eapply lookup_lt_Some.
  - intros i c p s' Hc Haw Hstep. simpl in Hstep. unfold resume in Hstep.
    rewrite Hc in Hstep. unfold awaits in Haw.
    destruct (pc c); simplify_eq;
      destruct (promises s !! p) as [[[|re]|]|]; simplify_eq; eauto.
Qed.

(** X20: as long as no transport failure is auth-related, [refreshToken] is
    never called and no handle is ever installed, whatever the invocations
    and however they interleave. *)
Lemma no_auth_failure_no_refresh acts : forall s s',
  (forall i e, In (FetchSettles i (Rejected e)) acts ->
     shouldRefreshToken e = false) ->
  run s acts = Some s' ->
  refreshingTokenPromise s = None ->
  refreshTokenCalls s' = refreshTokenCalls s /\
  refreshingTokenPromise s' = None.
Proof.
  induction acts as [|a acts IH]; intros s s' Hno; simpl.
  - by intros [= <-].
  - destruct (step s a) as [s1|] eqn:Hstep; [|done]. intros Hrun Hnone.
    assert (Hsame : refreshTokenCalls s1 = refreshTokenCalls s /\
                    refreshingTokenPromise s1 = None).
    { destruct (step_handle_change _ _ _ Hstep) as
        [Hh _ Hn|_ _ _ Hn|p r Hsome _ _ _ _ _]; [split; congruence | | congruence].
      exfalso. destruct a as [u o|i x|x|i]; simpl in Hstep.
      - injection Hstep as <-. simpl in Hn. lia.
      - unfold fetchSettles in Hstep.
        destruct (calls s !! i) as [c|]; [|done].
        destruct (pc c), x as [v|e]; try discriminate;
          try (injection Hstep as <-; simpl in Hn; lia).
        rewrite (Hno i e (or_introl eq_refl)) in Hstep.
        injection Hstep as <-. simpl in Hn. lia.
      - unfold refreshSettles in Hstep. by rewrite Hnone in Hstep.
      - unfold resume in Hstep.
        destruct (calls s !! i) as [c|]; [|done].
        destruct (pc c); try discriminate;
          destruct (promises s !! p) as [[[|re]|]|]; try discriminate;
          injection Hstep as <-; simpl in Hn; lia. }
    destruct Hsame as [Hn1 Hh1].
    destruct (IH s1 s') as [Hn' Hh']; [|done|done|].
    + intros i e Hin. apply (Hno i e). by right.
    + split; [congruence | done].
Qed.

(** ** One failure episode with [N] invocations *)

Lemma fetchesOf_app (h1 h2 : list (@Event Url Opts Val)) :
  fetchesOf (h1 ++ h2) = fetchesOf h1 ++ fetchesOf h2.
Proof.
  induction h1 as [|[] h1 IH]; simpl; rewrite ?IH; done.
Qed.

Lemma run_invokeAll s args :
  refreshingTokenPromise s = None ->
  run s (invokeAll args) =
  Some {| refreshingTokenPromise := None;
          promises := promises s;
          refreshTokenCalls := refreshTokenCalls s;
          calls := calls s ++
            map (fun x => {| url := fst x; options := snd x; pc := WaitFetch;
                             hist := [EvEnter None; EvFetch (fst x) (snd x)] |})
                args |}.
Proof.
  revert s. induction args as [|[u o] args IH]; intros s Hs; simpl.
  - rewrite app_nil_r. destruct s; simpl in *. by subst.
  - rewrite IH by (simpl; done). unfold invoke. rewrite Hs. simpl.
    by rewrite <- app_assoc.
Qed.

Lemma fetchOutcomes_app (h1 h2 : list (@Event Url Opts Val)) :
  fetchOutcomes (h1 ++ h2) = fetchOutcomes h1 ++ fetchOutcomes h2.
Proof.
  induction h1 as [|[] h1 IH]; simpl; rewrite ?IH; done.
Qed.

Lemma head_app_Some {A} (l1 l2 : list A) x :
  head l1 = Some x -> head (l1 ++ l2) = Some x.
Proof. by destruct l1. Qed.

Lemma FanIn_invokeAll s0 args s :
  refreshingTokenPromise s0 = None ->
  run s0 (invokeAll args) = Some s -> FanIn s0 (length args) [] s.
Proof.
  intros Hnone. rewrite run_invokeAll by done. intros [= <-]. split; simpl.
  - by rewrite length_app, length_map.
  - intros i c Hi Hc. rewrite lookup_app_r in Hc by done.
    apply list_lookup_fmap_Some in Hc as ([u o] & -> & _).
    simpl. split; [done|]. left. split; [done|]. split; [done|].
    apply not_elem_of_nil.
  - done.
Qed.

Lemma FanIn_step s0 N failed s i e s' :
  FanIn s0 N failed s ->
  length (calls s0) <= i ->
  shouldRefreshToken e = true ->
  step s (FetchSettles i (Rejected e)) = Some s' ->
  FanIn s0 N (i :: failed) s'.
Proof.
  intros [Hlen Hcalls Hh] Hi He Hstep. simpl in Hstep.
  unfold fetchSettles in Hstep.
  destruct (calls s !! i) as [c|] eqn:Hc; [|done].
  destruct (Hcalls _ _ Hi Hc) as [Hf [(Hpc & Hout & Hni)|(e' & Hpc & Hout & Hin)]];
    rewrite Hpc in Hstep; [|done]. rewrite He in Hstep.
  assert (Hother : forall j c', length (calls s0) <= j -> j <> i ->
    calls s !! j = Some c' ->
    fetchesOf (hist c') = [(url c', options c')] /\
    ((pc c' = WaitFetch /\ fetchOutcomes (hist c') = [] /\ j ∉ i :: failed) \/
     (exists e0, pc c' = WaitRefresh (length (promises s0)) e0 /\
        fetchOutcomes (hist c') = [Rejected e0] /\
        j ∈ i :: failed))).
  { intros j c' Hj Hne Hc'.
    destruct (Hcalls _ _ Hj Hc') as [Hf' [(? & ? & ?)|(e0 & ? & ? & ?)]].
    - split; [done|]. left. split; [done|]. split; [done|].
      rewrite not_elem_of_cons. done.
    - split; [done|]. right. exists e0. split; [done|]. split; [done|].
      by apply elem_of_cons; right. }
  destruct failed as [|k failed].
  - destruct Hh as (Hnone & Hp & Hn). rewrite Hnone in Hstep.
    injection Hstep as <-. split; simpl.
    + by rewrite length_insert.
    + intros j c' Hj Hc'. apply list_lookup_insert_Some in Hc' as
        [(<- & <- & _)|(Hne & Hc')]; [|by apply Hother].
      simpl. rewrite fetchesOf_app, fetchOutcomes_app, Hf, Hout, Hp. simpl.
      split; [done|].
      right. exists e. split; [done|]. split; [done|].
      apply elem_of_cons; by left.
    + rewrite Hp, Hn. done.
  - destruct Hh as (Hsome & Hp & Hn). rewrite Hsome in Hstep.
    injection Hstep as <-. split; simpl.
    + by rewrite length_insert.
    + intros j c' Hj Hc'. apply list_lookup_insert_Some in Hc' as
        [(<- & <- & _)|(Hne & Hc')]; [|by apply Hother].
      simpl. rewrite fetchesOf_app, fetchOutcomes_app, Hf, Hout. simpl.
      split; [done|].
      right. exists e. split; [done|]. split; [done|].
      apply elem_of_cons; by left.
    + done.
Qed.

Lemma FanIn_failAll s0 N fails : forall failed s s',
  FanIn s0 N failed s ->
  Forall (fun f => length (calls s0) <= fst f /\
                   shouldRefreshToken (snd f) = true) fails ->
  run s (failAll fails) = Some s' ->
  exists failed', FanIn s0 N failed' s' /\
    (forall i, i ∈ failed' <-> i ∈ failed \/ i ∈ map fst fails).
Proof.
  induction fails as [|[i e] fails IH]; intros failed s s' Hin Hall; simpl.
  - intros [= <-]. exists failed. split; [done|]. intros i.
    rewrite elem_of_nil. tauto.
  - destruct (fetchSettles shouldRefreshToken refreshTokenThrows s i (Rejected e))
      as [s1|] eqn:E; [|done].
    intros Hrun. apply Forall_cons in Hall as [[Hi He] Hall]. simpl in Hi, He.
    destruct (IH (i :: failed) s1 s') as (failed' & Hin' & Hmem);
      [by eapply FanIn_step | done | done |].
    exists failed'. split; [done|]. intros j. rewrite Hmem.
    rewrite !elem_of_cons. tauto.
Qed.

(** Once every one of the [N] invocations has failed, and the handle of
    the episode has settled with [r]. *)
Lemma FanOut_FanIn s0 N failed s r s' :
  0 < N ->
  FanIn s0 N failed s ->
  (forall i, length (calls s0) <= i < length (calls s0) + N -> i ∈ failed) ->
  calls s' = calls s ->
  promises s' = promises s0 ++ [Some r] ->
  refreshingTokenPromise s' = None \/
  refreshingTokenPromise s' = Some (length (promises s0)) ->
  refreshTokenCalls s' = refreshTokenCalls s ->
  FanOut s0 N r s'.
Proof.
  intros HN [Hlen Hcalls Hh] Hall Hc' Hp' Hh' Hn'.
  destruct failed as [|k failed].
  { assert (Hin : length (calls s0) ∈ @nil nat) by (apply Hall; lia).
    by apply elem_of_nil in Hin. }
  destruct Hh as (Hsome & Hp & Hn). split; try done.
  - by rewrite Hc'.
  - by rewrite Hn'.
  - rewrite Hc'. intros i c Hi Hc.
    destruct (Hcalls _ _ Hi Hc) as [Hf [(Hpc & _ & Hni)|(e & Hpc & Hout & Hin)]].
    + exfalso. apply Hni, Hall. split; [done|]. rewrite <- Hlen.
      by eapply lookup_lt_Some.
    + unfold expectedFetches. rewrite Hpc, Hout. split; [done|].
      exists e. done.
Qed.

Lemma FanOut_settle s0 N failed s r s' :
  0 < N ->
  FanIn s0 N failed s ->
  (forall i, length (calls s0) <= i < length (calls s0) + N -> i ∈ failed) ->
  step s (RefreshSettles r) = Some s' ->
  FanOut s0 N r s'.
Proof.
  intros HN Hin Hall Hstep. pose proof Hin as [Hlen Hcalls Hh].
  destruct failed as [|k failed].
  { assert (Hi : length (calls s0) ∈ @nil nat) by (apply Hall; lia).
    by apply elem_of_nil in Hi. }
  destruct Hh as (Hsome & Hp & Hn). simpl in Hstep.
  unfold refreshSettles in Hstep. rewrite Hsome in Hstep.
  destruct (promises s !! length (promises s0)) as [[?|]|]; try done.
  injection Hstep as <-.
  eapply FanOut_FanIn; [exact HN | exact Hin | exact Hall | done | | by left | done].
  simpl. rewrite Hp. rewrite insert_app_r_alt by done.
  by rewrite Nat.sub_diag.
Qed.

(** When the call of [refreshToken] threw, the handle of the episode is
    settled as soon as it is installed. *)
Lemma FanOut_thrown s0 N failed s thrown :
  0 < N ->
  FanIn s0 N failed s ->
  (forall i, length (calls s0) <= i < length (calls s0) + N -> i ∈ failed) ->
  refreshTokenThrows (refreshTokenCalls s0) = Some thrown ->
  FanOut s0 N (RefreshFailed thrown) s.
Proof.
  intros HN Hin Hall Hthrown. pose proof Hin as [Hlen Hcalls Hh].
  destruct failed as [|k failed].
  { assert (Hi : length (calls s0) ∈ @nil nat) by (apply Hall; lia).
    by apply elem_of_nil in Hi. }
  destruct Hh as (Hsome & Hp & Hn).
  eapply FanOut_FanIn; [exact HN | exact Hin | exact Hall | done | | by right | done].
  rewrite Hp. unfold Coordinator.installed. by rewrite Hthrown.
Qed.

Lemma FanOut_step s0 N r s a s' :
  FanOut s0 N r s ->
  onlyFrom (length (calls s0)) a = true ->
  step s a = Some s' ->
  FanOut s0 N r s'.
Proof.
  intros [Hlen Hh Hp Hn Hcalls] Ha Hstep.
  assert (Hkeep : forall i c', length (calls s0) <= i ->
    fetchesOf (hist c') = expectedFetches r c' /\
    (exists e, head (fetchOutcomes (hist c')) = Some (Rejected e) /\
       match pc c' with
       | WaitRefresh p e' => p = length (promises s0) /\ e' = e
       | WaitRetry e' => r = RefreshOk /\ e' = e
       | Settled result =>
           match r with
           | RefreshOk => True
           | RefreshFailed _ => result = Rejected e
           end
       | _ => False
       end) ->
    FanOut s0 N r (setCall s i c')).
  { intros i c' Hi Hc'. split; simpl; try done.
    - by rewrite length_insert.
    - intros j c'' Hj Hjc. apply list_lookup_insert_Some in Hjc as
        [(<- & <- & _)|(Hne & Hjc)]; [done | by eapply Hcalls]. }
  destruct a as [u o|i x|x|i]; simpl in Ha, Hstep; [done| | |].
  - apply Nat.leb_le in Ha. unfold fetchSettles in Hstep.
    destruct (calls s !! i) as [c|] eqn:Hc; [|done].
    destruct (Hcalls _ _ Ha Hc) as [Hf (e & Hout & Hpc)].
    unfold expectedFetches in Hf.
    destruct (pc c) eqn:Epc; try done; destruct Hpc as [-> ->];
      destruct x as [v|e']; try discriminate; injection Hstep as <-;
      (eapply Hkeep; [done|]); unfold expectedFetches; simpl;
      rewrite fetchesOf_app, fetchOutcomes_app, Hf; simpl;
      (split; [by rewrite ?app_nil_r|]); exists e;
      (split; [by apply head_app_Some | done]).
  - unfold refreshSettles in Hstep.
    destruct Hh as [Hh|Hh]; rewrite Hh in Hstep; [done|].
    rewrite Hp in Hstep. rewrite lookup_app_r in Hstep by done.
    rewrite Nat.sub_diag in Hstep. done.
  - apply Nat.leb_le in Ha. unfold resume in Hstep.
    destruct (calls s !! i) as [c|] eqn:Hc; [|done].
    destruct (Hcalls _ _ Ha Hc) as [Hf (e & Hout & Hpc)].
    unfold expectedFetches in Hf.
    destruct (pc c) eqn:Epc; try done. destruct Hpc as [-> ->].
    rewrite Hp in Hstep.
    rewrite lookup_app_r in Hstep by done. rewrite Nat.sub_diag in Hstep.
    simpl in Hstep. destruct r as [|re]; injection Hstep as <-;
      (eapply Hkeep; [done|]); unfold expectedFetches; simpl;
      rewrite fetchesOf_app, fetchOutcomes_app, Hf; simpl;
      (split; [by rewrite ?app_nil_r|]); exists e;
      (split; [by apply head_app_Some | done]).
Qed.

Lemma FanOut_run s0 N r acts : forall s s',
  FanOut s0 N r s ->
  Forall (fun a => onlyFrom (length (calls s0)) a = true) acts ->
  run s acts = Some s' ->
  FanOut s0 N r s'.
Proof.
  induction acts as [|a acts IH]; intros s s' Hs Hall; simpl.
  - by intros [= <-].
  - apply Forall_cons in Hall as [Ha Hall].
    destruct (step s a) as [s1|] eqn:E; [|done].
    apply IH; [|done]. by eapply FanOut_step.
Qed.

(** C1 (single-flight, as amended): in a state [s0] in which no refresh is
    pending, [N >= 1] invocations begin and the transport call of each fails
    with an auth-classified error before the refresh settles; the refresh
    settles with [r], when the promise [refreshToken] returned settles or,
    if [refreshToken] threw, at once.  Then [refreshToken] is called exactly
    once, whatever these invocations do afterwards.  Each of them has its
    first failure [e].  One that still waits for the handle can resume, and
    resuming takes it to its retry, its second transport call, when the
    refresh succeeded, and makes it reject with [e], with no further
    transport call, when the refresh failed; one that has resumed has issued
    exactly one further transport call when the refresh succeeded, and none
    when it failed, and has then rejected with [e].  The check for a handle
    and the install of a new one are one transition. *)
Theorem single_flight s0 args fails settle r tail s :
  refreshingTokenPromise s0 = None ->
  1 <= length args ->
  (forall i, length (calls s0) <= i < length (calls s0) + length args ->
     i ∈ map fst fails) ->
  Forall (fun f => length (calls s0) <= fst f /\
                   shouldRefreshToken (snd f) = true) fails ->
  match refreshTokenThrows (refreshTokenCalls s0) with
  | None => settle = [RefreshSettles r]
  | Some thrown => settle = [] /\ r = RefreshFailed thrown
  end ->
  Forall (fun x => onlyFrom (length (calls s0)) x = true) tail ->
  run s0 (invokeAll args ++ failAll fails ++ settle ++ tail) = Some s ->
  refreshTokenCalls s = S (refreshTokenCalls s0) /\
  length (calls s) = length (calls s0) + length args /\
  (forall i c, length (calls s0) <= i -> calls s !! i = Some c ->
     fetchesOf (hist c) = expectedFetches r c /\
     exists e, head (fetchOutcomes (hist c)) = Some (Rejected e) /\
       match pc c with
       | WaitRefresh _ _ =>
           exists s' c',
             step s (Resume i) = Some s' /\
             calls s' !! i = Some c' /\
             pc c' = match r with
                     | RefreshOk => WaitRetry e
                     | RefreshFailed _ => Settled (Rejected e)
                     end /\
             fetchesOf (hist c') = (url c, options c) :: retries r c
       | WaitRetry _ => r = RefreshOk
       | Settled result =>
           match r with
           | RefreshOk => True
           | RefreshFailed _ => result = Rejected e
           end
       | _ => False
       end) /\
  (forall s1 a s2, step s1 a = Some s2 ->
     refreshTokenCalls s2 <> refreshTokenCalls s1 ->
     refreshingTokenPromise s1 = None /\
     refreshingTokenPromise s2 = Some (length (promises s1)) /\
     refreshTokenCalls s2 = S (refreshTokenCalls s1)).
Proof.
  intros Hnone HN Hall Hauth Hsettle Htail Hrun.
  rewrite run_app in Hrun.
  destruct (run s0 (invokeAll args)) as [sa|] eqn:E0; [|done].
  rewrite run_app in Hrun.
  destruct (run sa (failAll fails)) as [sb|] eqn:E1; [|done].
  rewrite run_app in Hrun.
  destruct (run sb settle) as [sc|] eqn:E2; [|done].
  apply FanIn_invokeAll in E0; [|done].
  destruct (FanIn_failAll _ _ _ _ _ _ E0 Hauth E1) as (failed & Hin & Hmem).
  assert (Hfailed : forall i,
    length (calls s0) <= i < length (calls s0) + length args -> i ∈ failed).
  { intros i Hi. apply Hmem. right. by apply Hall. }
  assert (Hout : FanOut s0 (length args) r sc).
  { destruct (refreshTokenThrows (refreshTokenCalls s0)) as [thrown|] eqn:Ethrown.
    - destruct Hsettle as [-> ->]. injection E2 as <-.
      eapply FanOut_thrown; [lia | exact Hin | exact Hfailed | exact Ethrown].
    - subst settle. simpl in E2.
      destruct (refreshSettles sb r) as [sc'|] eqn:E3; [|done].
      injection E2 as <-.
      eapply FanOut_settle; [lia | exact Hin | exact Hfailed | exact E3]. }
  destruct (FanOut_run _ _ _ _ _ _ Hout Htail Hrun) as [Hlen Hh Hp Hn Hcalls].
  split; [done|]. split; [done|]. split.
  - intros i c Hi Hc. destruct (Hcalls _ _ Hi Hc) as [Hf (e & Hfirst & Hpc)].
    split; [done|]. exists e. split; [done|].
    destruct (pc c) eqn:Epc; try done; [|by destruct Hpc].
    destruct Hpc as [-> ->].
    simpl. unfold resume. rewrite Hc, Epc, Hp.
    rewrite lookup_app_r by done. rewrite Nat.sub_diag. simpl.
    unfold expectedFetches in Hf. rewrite Epc in Hf.
    destruct r as [|re]; eexists; eexists;
      (split; [reflexivity|]);
      (split; [by eapply lookup_setCall|]);
      simpl; rewrite fetchesOf_app, Hf; done.
  - intros s1 a s2 Hstep Hch.
    destruct (install_atomic _ _ _ Hstep (or_introl Hch)) as (? & ? & ? & ?).
    done.
Qed.

(** A handle that is in the variable and has settled stays there: no
    transition resets the variable, and [refreshToken] is not called
    again. *)
Lemma settled_handle_stays acts : forall s s' p r,
  refreshingTokenPromise s = Some p ->
  promises s !! p = Some (Some r) ->
  run s acts = Some s' ->
  refreshingTokenPromise s' = Some p /\
  promises s' = promises s /\
  refreshTokenCalls s' = refreshTokenCalls s.
Proof.
  induction acts as [|a acts IH]; intros s s' p r Hh Hp; simpl.
  - by intros [= <-].
  - destruct (step s a) as [s1|] eqn:Hstep; [|done]. intros Hrun.
    destruct (step_handle_change _ _ _ Hstep) as
      [Hh1 Hp1 Hn1|Hnone _ _ _|q r' Hq Hpend _ _ _ _]; [|congruence|congruence].
    destruct (IH s1 s' p r) as (Hh' & Hp' & Hn'); [congruence|congruence|done|].
    split; [done|]. split; congruence.
Qed.

End Proofs.

(** ** The schedules of [Scenarios] *)

Import Scenarios.

Section Runs.

Local Open Scope string_scope.

Lemma pass_through_witness :
  (exists s c,
     run isTokenExpired returnsPromise start passThrough = Some s /\
     calls s !! 0 = Some c /\
     pc c = Settled (Resolved "result") /\
     fetchesOf (hist c) = [("/foo", "POST")]) /\
  (exists s,
     run isTokenExpired returnsPromise start (firstn 6 bystanderFetchFails) = Some s /\
     exists s' c',
       step isTokenExpired returnsPromise s (FetchSettles 1 (Resolved "success"))
         = Some s' /\
       calls s' !! 1 = Some c' /\
       pc c' = Settled (Resolved "success") /\
       fetchesOf (hist c') = [("/api/data2", "POST")] /\
       fetchOutcomes (hist c') = [Resolved "success"]) /\
  (exists s,
     run isTokenExpired returnsPromise start (firstn 6 bystanderRefreshFails) = Some s /\
     exists s' c',
       step isTokenExpired returnsPromise s (FetchSettles 1 (Resolved "success"))
         = Some s' /\
       calls s' !! 1 = Some c' /\
       pc c' = Settled (Resolved "success") /\
       fetchesOf (hist c') = [("/api/data2", "POST")] /\
       fetchOutcomes (hist c') = [Resolved "success"]).
Proof.
  split; [|split].
  - eexists. eexists. split; [vm_compute; reflexivity|].
    split; [vm_compute; reflexivity|].
    refine (proj1 (pass_through isTokenExpired returnsPromise _ 0 _ _ _)
              "result" _).
    + exists passThrough. reflexivity.
    + reflexivity.
    + reflexivity.
  - eexists. split; [vm_compute; reflexivity|].
    refine (proj2 (proj2 (pass_through isTokenExpired returnsPromise _ 1
                            {| url := "/api/data2"; options := "POST";
                               pc := WaitFetchBystander; hist := _ |} _ _)
                     _ _) "success").
    + exists (firstn 6 bystanderFetchFails). reflexivity.
    + reflexivity.
    + reflexivity.
    + discriminate.
  - eexists. split; [vm_compute; reflexivity|].
    refine (proj2 (proj2 (pass_through isTokenExpired returnsPromise _ 1
                            {| url := "/api/data2"; options := "POST";
                               pc := WaitFetchBystanderCatch; hist := _ |} _ _)
                     _ _) "success").
    + exists (firstn 6 bystanderRefreshFails). reflexivity.
    + reflexivity.
    + reflexivity.
    + discriminate.
Defined.


Lemma original_error_on_refresh_failure_witness :
  exists s c,
    run isTokenExpired returnsPromise start refreshFails = Some s /\
    calls s !! 0 = Some c /\
    pc c = Settled (Rejected "Token expired") /\
    fetchesOf (hist c) = [("/api/data", "GET")].
Proof.
  eexists. eexists. split; [vm_compute; reflexivity|].
  split; [vm_compute; reflexivity|].
  refine (original_error_on_refresh_failure isTokenExpired returnsPromise _ 0 _ _ "Refresh failed" _ _ _ _ _ _).
  - exists refreshFails. reflexivity.
  - reflexivity.
  - reflexivity.
  - reflexivity.
  - reflexivity.
  - reflexivity.
Defined.

Lemma bystander_isolation_witness :
  exists s,
    run isTokenExpired returnsPromise start (firstn 6 bystanderRefreshFails) = Some s /\
    exists s' c',
      step isTokenExpired returnsPromise s
        (FetchSettles 1 (Rejected "Service unavailable")) = Some s' /\
      calls s' !! 1 = Some c' /\
      pc c' = Settled (Rejected "Service unavailable") /\
      fetchesOf (hist c') = [("/api/data2", "POST")] /\
      fetchOutcomes (hist c') = [Rejected "Service unavailable"].
Proof.
  eexists. split; [vm_compute; reflexivity|].
  refine (proj2 (proj2 (bystander_isolation isTokenExpired returnsPromise _ 1
                          {| url := "/api/data2"; options := "POST";
                             pc := WaitFetchBystanderCatch; hist := _ |}
                          0 "Refresh failed" _ _ _ _))
            (Rejected "Service unavailable")).
  - exists (firstn 6 bystanderRefreshFails). reflexivity.
  - reflexivity.
  - reflexivity.
  - reflexivity.
Defined.

Lemma bystander_never_classifies_witness :
  exists s c,
    run isTokenExpired returnsPromise start bystanderRefreshFails = Some s /\
    calls s !! 1 = Some c /\
    shouldRefreshArgs (hist c) = [] /\
    refreshesOf (hist c) = [] /\
    (forall r, pc c = Settled r -> last (fetchOutcomes (hist c)) = Some r).
Proof.
  eexists. eexists. split; [vm_compute; reflexivity|].
  split; [vm_compute; reflexivity|].
  refine (bystander_never_classifies isTokenExpired returnsPromise _ 1 _ 0 _ _ _).
  - exists bystanderRefreshFails. reflexivity.
  - reflexivity.
  - reflexivity.
Defined.

Lemma pending_handle_invariant_witness :
  exists s,
    run isTokenExpired returnsPromise start refreshPending = Some s /\
    refreshingTokenPromise s = Some 0 /\
    promises s !! 0 = Some None /\
    refreshTokenCalls s = length (promises s) /\
    exists s', step isTokenExpired returnsPromise s (RefreshSettles RefreshOk) = Some s' /\
      refreshingTokenPromise s' = None /\
      promises s' !! 0 = Some (Some RefreshOk) /\
      calls s' = calls s.
Proof.
  eexists. split; [vm_compute; reflexivity|].
  split; [reflexivity|]. split; [reflexivity|].
  destruct (pending_handle_invariant isTokenExpired returnsPromise _
              (ex_intro _ refreshPending eq_refl))
    as (_ & _ & _ & Hcount & _ & Hreset & _).
  split; [exact Hcount|].
  apply (Hreset 0 RefreshOk). reflexivity.
Defined.

Lemma single_flight_witness :
  (exists s,
     run isTokenExpired returnsPromise start
       (invokeAll threeArgs ++ failAll threeFails ++ [RefreshSettles RefreshOk] ++ firstn 2 threeTail) = Some s /\
     refreshTokenCalls s = 1 /\
     length (calls s) = 3 /\
     (forall i c, 0 <= i -> calls s !! i = Some c ->
        fetchesOf (hist c) = expectedFetches (@RefreshOk string) c /\
        exists e, head (fetchOutcomes (hist c)) = Some (Rejected e) /\
          match pc c with
          | WaitRefresh _ _ =>
              exists s' c',
                step isTokenExpired returnsPromise s (Resume i) = Some s' /\
                calls s' !! i = Some c' /\
                pc c' = match @RefreshOk string with
                        | RefreshOk => WaitRetry e
                        | RefreshFailed _ => Settled (Rejected e)
                        end /\
                fetchesOf (hist c') = (url c, options c) :: retries (@RefreshOk string) c
          | WaitRetry _ => @RefreshOk string = RefreshOk
          | Settled result =>
              match @RefreshOk string with
              | RefreshOk => True
              | RefreshFailed _ => result = Rejected e
              end
          | _ => False
          end) /\
     (forall (s1 : @State string string string) a s2,
        step isTokenExpired returnsPromise s1 a = Some s2 ->
        refreshTokenCalls s2 <> refreshTokenCalls s1 ->
        refreshingTokenPromise s1 = None /\
        refreshingTokenPromise s2 = Some (length (promises s1)) /\
        refreshTokenCalls s2 = S (refreshTokenCalls s1))) /\
  (exists s,
     run isTokenExpired returnsPromise start
       (invokeAll threeArgs ++ failAll threeFails ++ [RefreshSettles (RefreshFailed "Refresh failed")] ++ [Resume 1]) = Some s /\
     refreshTokenCalls s = 1 /\
     length (calls s) = 3 /\
     (forall i c, 0 <= i -> calls s !! i = Some c ->
        fetchesOf (hist c) = expectedFetches (RefreshFailed "Refresh failed") c /\
        exists e, head (fetchOutcomes (hist c)) = Some (Rejected e) /\
          match pc c with
          | WaitRefresh _ _ =>
              exists s' c',
                step isTokenExpired returnsPromise s (Resume i) = Some s' /\
                calls s' !! i = Some c' /\
                pc c' = match RefreshFailed "Refresh failed" with
                        | RefreshOk => WaitRetry e
                        | RefreshFailed _ => Settled (Rejected e)
                        end /\
                fetchesOf (hist c') = (url c, options c) :: retries (RefreshFailed "Refresh failed") c
          | WaitRetry _ => RefreshFailed "Refresh failed" = RefreshOk
          | Settled result =>
              match RefreshFailed "Refresh failed" with
              | RefreshOk => True
              | RefreshFailed _ => result = Rejected e
              end
          | _ => False
          end) /\
     (forall (s1 : @State string string string) a s2,
        step isTokenExpired returnsPromise s1 a = Some s2 ->
        refreshTokenCalls s2 <> refreshTokenCalls s1 ->
        refreshingTokenPromise s1 = None /\
        refreshingTokenPromise s2 = Some (length (promises s1)) /\
        refreshTokenCalls s2 = S (refreshTokenCalls s1))).
Proof.
  split.
  - eexists. split; [vm_compute; reflexivity|].
    refine (single_flight isTokenExpired returnsPromise start threeArgs threeFails
              [RefreshSettles RefreshOk] RefreshOk (firstn 2 threeTail)
              _ _ _ _ _ _ _ _).
    + reflexivity.
    + simpl. lia.
    + intros i Hi. simpl in Hi.
      destruct i as [|[|[|i]]]; [repeat constructor.. | lia].
    + repeat constructor.
    + reflexivity.
    + repeat constructor.
    + vm_compute. reflexivity.
  - eexists. split; [vm_compute; reflexivity|].
    refine (single_flight isTokenExpired returnsPromise start threeArgs threeFails
              [RefreshSettles (RefreshFailed "Refresh failed")]
              (RefreshFailed "Refresh failed") [Resume 1] _ _ _ _ _ _ _ _).
    + reflexivity.
    + simpl. lia.
    + intros i Hi. simpl in Hi.
      destruct i as [|[|[|i]]]; [repeat constructor.. | lia].
    + repeat constructor.
    + reflexivity.
    + repeat constructor.
    + vm_compute. reflexivity.
Defined.

(** The scenario of the test suite: three concurrent invocations, one call
    to [refreshToken], six transport calls, three successes. *)
Example three_concurrent_calls :
  exists s,
    run isTokenExpired returnsPromise start threeConcurrent = Some s /\
    refreshTokenCalls s = 1 /\
    map pc (calls s) =
      [Settled (Resolved "success"); Settled (Resolved "success");
       Settled (Resolved "success")] /\
    length (concat (map (fun c => fetchesOf (hist c)) (calls s))) = 6.
Proof. eexists. split; [vm_compute; reflexivity|]. by vm_compute. Qed.

(** A bystander whose transport call fails after a successful refresh:
    the failure is not classified, even though it is auth-related, and the
    transport is called a second time. *)
Example bystander_fetches_again :
  exists s c,
    run isTokenExpired returnsPromise start bystanderFetchFails = Some s /\
    calls s !! 1 = Some c /\
    shouldRefreshArgs (hist c) = [] /\
    fetchesOf (hist c) = [("/api/data2", "POST"); ("/api/data2", "POST")] /\
    pc c = Settled (Resolved "success") /\
    refreshTokenCalls s = 1.
Proof.
  eexists. eexists. split; [vm_compute; reflexivity|].
  split; [vm_compute; reflexivity|]. by vm_compute.
Qed.

(** A failure that arrives after the refresh has settled starts a second
    episode, with its own call to [refreshToken]. *)
Example late_failure_refreshes_again :
  exists s,
    run isTokenExpired returnsPromise start twoEpisodes = Some s /\
    refreshTokenCalls s = 2 /\
    refreshingTokenPromise s = Some 1.
Proof. eexists. split; [vm_compute; reflexivity|]. by vm_compute. Qed.

(** C1, as stated, fails when the refresh fails: the one invocation of
    [refreshFails] fails with an auth-classified error while no refresh is
    pending, [refreshToken] is called once, and the invocation rejects with
    its original error without any further transport call. *)
Lemma single_flight_refresh_failure :
  exists s c,
    run isTokenExpired returnsPromise start refreshFails = Some s /\
    calls s !! 0 = Some c /\
    refreshTokenCalls s = 1 /\
    pc c = Settled (Rejected "Token expired") /\
    fetchesOf (hist c) = [("/api/data", "GET")] /\
    ~ (exists first further, fetchesOf (hist c) = [first; further]).
Proof.
  eexists. eexists. split; [vm_compute; reflexivity|].
  split; [vm_compute; reflexivity|].
  split; [reflexivity|]. split; [reflexivity|]. split; [reflexivity|].
  intros (first & further & H). vm_compute in H. discriminate H.
Qed.

(** C5 at its failing input: the retry issued after a successful refresh
    fails with ["Service unavailable"], and the invocation rejects with the
    error of the first attempt, ["Token expired"]. *)
Lemma retry_failure_surfaces_first_error :
  exists s c,
    run isTokenExpired returnsPromise start retryFails = Some s /\
    calls s !! 0 = Some c /\
    fetchesOf (hist c) = [("/api/data", "GET"); ("/api/data", "GET")] /\
    fetchOutcomes (hist c) =
      [Rejected "Token expired"; Rejected "Service unavailable"] /\
    pc c = Settled (Rejected "Token expired").
Proof.
  eexists. eexists. split; [vm_compute; reflexivity|].
  split; [vm_compute; reflexivity|]. by vm_compute.
Qed.

(** C2 at its failing input: [refreshToken] throws.  The promise of line
    37 is rejected as it is made and is installed all the same; no callback
    will reset the variable, so the handle stays in it although no refresh
    is in progress.  The invocation that made the call rejects with its own
    error; an invocation that begins afterwards is treated as one that
    begins during a refresh: it rejects with its auth-related failure, which
    is neither classified nor followed by a call of [refreshToken]; and this
    is so for good, whatever happens next. *)
Lemma thrown_refresh_is_never_reset :
  exists s first second,
    run isTokenExpired throwsAtOnce start afterThrownRefresh = Some s /\
    refreshingTokenPromise s = Some 0 /\
    promises s = [Some (RefreshFailed "Not signed in")] /\
    refreshTokenCalls s = 1 /\
    (forall r, step isTokenExpired throwsAtOnce s (RefreshSettles r) = None) /\
    calls s = [first; second] /\
    pc first = Settled (Rejected "Token expired") /\
    enteredWith second = Some (Some 0) /\
    fetchOutcomes (hist second) = [Rejected "Token expired"] /\
    shouldRefreshArgs (hist second) = [] /\
    pc second = Settled (Rejected "Token expired") /\
    (forall acts s',
       run isTokenExpired throwsAtOnce s acts = Some s' ->
       refreshingTokenPromise s' = Some 0 /\ refreshTokenCalls s' = 1).
Proof.
  eexists. eexists. eexists. split; [vm_compute; reflexivity|].
  repeat (split; [reflexivity|]).
  intros acts s' Hrun.
  refine (let H := settled_handle_stays isTokenExpired throwsAtOnce acts _ s' 0
                     (RefreshFailed "Not signed in") _ _ Hrun in
          conj (proj1 H) (proj2 (proj2 H))); reflexivity.
Qed.

(** C8 at its failing input: an invocation begins while a refresh is
    pending, the refresh succeeds, and the transport call of the invocation
    fails with ["Service unavailable"].  That failure does not reach the
    caller: it is caught at line 23 and the transport is called a second
    time; the invocation rejects with the failure of the second call,
    ["Gateway timeout"].  [shouldRefreshToken] is not called. *)
Lemma bystander_failure_is_retried :
  exists s c,
    run isTokenExpired returnsPromise start bystanderFetchFailsTwice = Some s /\
    calls s !! 1 = Some c /\
    enteredWith c = Some (Some 0) /\
    awaitedOf (hist c) = [RefreshOk] /\
    fetchesOf (hist c) = [("/api/data2", "POST"); ("/api/data2", "POST")] /\
    fetchOutcomes (hist c) =
      [Rejected "Service unavailable"; Rejected "Gateway timeout"] /\
    shouldRefreshArgs (hist c) = [] /\
    pc c = Settled (Rejected "Gateway timeout").
Proof.
  eexists. eexists. split; [vm_compute; reflexivity|].
  split; [vm_compute; reflexivity|]. by vm_compute.
Qed.

End Runs.

End RefreshFetchSpec.

(** * [fetchJSON]: proofs *)

Module FetchJSONSpec.

Import JS Lodash FetchJSON.

Local Open Scope string_scope.

(** ** Properties of objects *)

Lemma hasKey_getProp key object :
  hasKey key object = false -> getProp key object = VUndefined.
Proof.
  induction object as [|[k v] rest IH]; simpl; [done|].
  destruct (String.eqb k key); [done | exact IH].
Qed.

Lemma hasKey_In key object :
  hasKey key object = true -> In (key, getProp key object) object.
Proof.
  induction object as [|[k v] rest IH]; simpl; [done|].
  destruct (String.eqb_spec k key) as [->|Hne]; [by left | right; auto].
Qed.

Lemma In_hasKey key v object : In (key, v) object -> hasKey key object = true.
Proof.
  induction object as [|[k w] rest IH]; simpl; [done|].
  intros [[= -> ->]|Hin].
  - by rewrite String.eqb_refl.
  - destruct (String.eqb k key); auto.
Qed.

Lemma getProp_setProp key key' v object :
  getProp key' (setProp key v object) =
  if String.eqb key key' then v else getProp key' object.
Proof.
  induction object as [|[k w] rest IH]; simpl.
  - destruct (String.eqb key key'); done.
  - destruct (String.eqb_spec k key) as [->|Hne]; simpl.
    + destruct (String.eqb key key'); done.
    + destruct (String.eqb_spec k key') as [->|Hne'].
      * destruct (String.eqb_spec key key'); congruence.
      * exact IH.
Qed.

Lemma getProp_assignMergeValue key key' v object :
  getProp key' (assignMergeValue object key v) =
  if String.eqb key key'
  then match v with VUndefined => getProp key object | _ => v end
  else getProp key' object.
Proof.
  destruct v; simpl; try apply getProp_setProp.
  destruct (hasKey key object) eqn:Hk.
  - destruct (String.eqb_spec key key') as [->|]; done.
  - rewrite getProp_setProp. destruct (String.eqb_spec key key') as [->|]; [|done].
    symmetry. by apply hasKey_getProp.
Qed.

(** ** The loop of [baseMerge]

    Over a source without duplicate keys every key is merged once, against
    the value the destination had at the start. *)
Lemma mergeProps_spec rec : forall source object,
  uniqueKeys source = true ->
  (forall key v, In (key, v) source ->
     protoKey key && negb (isDefinedPrimitive v) = false /\
     is_Some (rec (getProp key object) v)) ->
  exists merged, mergeProps rec object source = Some merged /\
    forall key, getProp key merged =
      if hasKey key source
      then match rec (getProp key object) (getProp key source) with
           | Some VUndefined | None => getProp key object
           | Some newValue => newValue
           end
      else getProp key object.
Proof.
  induction source as [|[k v] rest IH]; intros object Huniq Hall; simpl.
  - eauto.
  - simpl in Huniq. apply andb_true_iff in Huniq as [Hk Huniq].
    apply negb_true_iff in Hk.
    destruct (Hall k v (or_introl eq_refl)) as [Hproto [newValue Hnew]].
    rewrite Hproto, Hnew.
    assert (Hrest : forall key w, In (key, w) rest -> key <> k).
    { intros key w Hin ->. apply In_hasKey in Hin. congruence. }
    destruct (IH (assignMergeValue object k newValue) Huniq) as (merged & Hm & Hget).
    { intros key w Hin. destruct (Hall key w (or_intror Hin)) as [Hp Hs].
      split; [done|]. rewrite getProp_assignMergeValue.
      destruct (String.eqb_spec k key) as [<-|]; [|done].
      by destruct (Hrest _ _ Hin). }
    exists merged. split; [done|]. intros key. rewrite Hget.
    rewrite !getProp_assignMergeValue.
    destruct (String.eqb_spec k key) as [<-|Hne].
    + rewrite Hk, Hnew. by destruct newValue.
    + done.
Qed.

(** An array of arrays of strings is copied. *)
Lemma mergeElems_pairs rows :
  forallb (fun row => match row with
                      | VArr [VStr _; VStr _] => true
                      | _ => false
                      end) rows = true ->
  mergeElems mergeDeep [] rows = Some rows.
Proof.
  induction rows as [|row rows IH]; simpl; [done|].
  intros Hall. apply andb_true_iff in Hall as [Hrow Hall].
  rewrite (IH Hall).
  destruct row as [| | | | |[|[] [|[] [|]]]| | |]; try discriminate. done.
Qed.

(** What [baseMergeDeep] assigns for a member of a [RequestInit]. *)
Lemma mergeDeep_member key v :
  isMember key v = true -> mergeDeep VUndefined v = Some v.
Proof. by destruct v. Qed.

Lemma mergeDeep_string objValue v :
  isString v = true -> mergeDeep objValue v = Some v.
Proof. by destruct v. Qed.

Lemma isMember_protoKey key v :
  isMember key v = true -> protoKey key && negb (isDefinedPrimitive v) = false.
Proof.
  destruct v; simpl; try done; try (by rewrite andb_false_r);
    intros H; apply negb_true_iff in H; by rewrite H.
Qed.

Lemma protoKey_headers : protoKey "headers" = false.
Proof. reflexivity. Qed.

(** The caller's headers against the default ones. *)
Lemma mergeDeep_headers headers :
  isHeadersInit headers = true ->
  exists merged,
    mergeDeep (VObj [("Content-Type", VStr "application/json")]) headers = Some merged /\
    mergedHeaders headers
      (match merged with
       | VUndefined => VObj [("Content-Type", VStr "application/json")]
       | _ => merged
       end).
Proof.
  destruct headers as [| | | | |rows|supplied|kind content|id];
    try discriminate; simpl.
  - eauto.
  - intros Hrows. rewrite (mergeElems_pairs rows Hrows). simpl. eauto.
  - rewrite orb_false_r. intros Hrec. apply andb_true_iff in Hrec as [Huniq Hstr].
    rewrite forallb_forall in Hstr.
    destruct (mergeProps_spec mergeDeep supplied
                [("Content-Type", VStr "application/json")] Huniq)
      as (result & Hres & Hget).
    { intros name v Hin. specialize (Hstr _ Hin). simpl in Hstr.
      destruct v; try discriminate. simpl. rewrite andb_false_r. eauto. }
    rewrite Hres. simpl. eexists. split; [done|]. exists result. split; [done|].
    intros name. rewrite Hget. destruct (hasKey name supplied) eqn:Hk; [|done].
    apply hasKey_In, Hstr in Hk. simpl in Hk.
    by destruct (getProp name supplied).
  - eauto.
Qed.

(** ** What [fetchJSON] passes to [fetch] *)

Section Options.

Variable JSON_parse : string -> option value.
Variable fetch : value -> value -> FetchResult.

Lemma isRequestInit_In options key v :
  isRequestInit options = true ->
  In (key, v) options ->
  if String.eqb key "headers" then isHeadersInit v = true
  else isMember key v = true.
Proof.
  intros Hreq Hin. apply andb_true_iff in Hreq as [_ Hall].
  rewrite forallb_forall in Hall. specialize (Hall _ Hin). simpl in Hall.
  by destruct (String.eqb key "headers").
Qed.

Lemma getProp_defaults key :
  getProp key defaults =
  if String.eqb key "headers"
  then VObj [("Content-Type", VStr "application/json")]
  else VUndefined.
Proof.
  rewrite String.eqb_sym. unfold defaults, getProp.
  by destruct (String.eqb "headers" key).
Qed.

Lemma merge_defaults options :
  isRequestInit options = true ->
  exists merged,
    merge defaults options = Some merged /\
    (forall key, key <> "headers" -> getProp key merged = getProp key options) /\
    mergedHeaders (getProp "headers" options) (getProp "headers" merged).
Proof.
  intros Hreq. pose proof Hreq as Huniq.
  apply andb_true_iff in Huniq as [Huniq _].
  destruct (mergeProps_spec mergeDeep options defaults Huniq)
    as (merged & Hm & Hget).
  { intros key v Hin. pose proof (isRequestInit_In _ _ _ Hreq Hin) as Hkv.
    rewrite getProp_defaults.
    destruct (String.eqb_spec key "headers") as [->|Hne].
    - split; [done|].
      destruct (mergeDeep_headers v Hkv) as (m & -> & _). eauto.
    - split; [by eapply isMember_protoKey|].
      rewrite (mergeDeep_member key v Hkv). eauto. }
  exists merged. split; [done|]. split.
  - intros key Hne. rewrite Hget, getProp_defaults.
    destruct (String.eqb_spec key "headers") as [|_]; [done|].
    destruct (hasKey key options) eqn:Hk.
    + pose proof (isRequestInit_In _ _ _ Hreq (hasKey_In _ _ Hk)) as Hkv.
      destruct (String.eqb_spec key "headers"); [done|].
      rewrite (mergeDeep_member key _ Hkv).
      by destruct (getProp key options).
    + symmetry. by apply hasKey_getProp.
  - rewrite Hget, getProp_defaults. rewrite String.eqb_refl.
    destruct (hasKey "headers" options) eqn:Hk.
    + pose proof (isRequestInit_In _ _ _ Hreq (hasKey_In _ _ Hk)) as Hkv.
      rewrite String.eqb_refl in Hkv.
      destruct (mergeDeep_headers _ Hkv) as (m & -> & Hmerged). exact Hmerged.
    + rewrite (hasKey_getProp _ _ Hk). done.
Qed.

(** C9: [fetchJSON] passes the caller's options to [fetch] unchanged when
    [options.body] is undefined; otherwise it passes
    [merge({headers: {'Content-Type': 'application/json'}}, options)], in
    which every other member of the options is the caller's, every header
    the caller supplied has the caller's value, a [Content-Type] of the
    caller included, and the default [Content-Type] is present when the
    caller's headers are a record without one or are absent. *)
Theorem fetchJSON_options url options :
  (getProp "body" options = VUndefined ->
   exists run,
     fetchJSON JSON_parse fetch url options = Some run /\
     fetched run = [(url, VObj options)]) /\
  (getProp "body" options <> VUndefined ->
   isRequestInit options = true ->
   exists run merged,
     fetchJSON JSON_parse fetch url options = Some run /\
     merge defaults options = Some merged /\
     fetched run = [(url, VObj merged)] /\
     (forall key, key <> "headers" -> getProp key merged = getProp key options) /\
     mergedHeaders (getProp "headers" options) (getProp "headers" merged)).
Proof.
  split.
  - intros Hbody. unfold fetchJSON, fetchOptions. rewrite Hbody. eauto.
  - intros Hbody Hreq.
    destruct (merge_defaults options Hreq) as (merged & Hm & Hother & Hheaders).
    unfold fetchJSON, fetchOptions. rewrite Hm.
    destruct (getProp "body" options); [done|..]; simpl; eauto 10.
Qed.

(** ** What [fetchJSON] settles with *)

Lemma getResponseBody_not_ResponseError r st r' b :
  getResponseBody JSON_parse r <> Throw (ResponseError st r' b).
Proof.
  unfold getResponseBody, tryParseJSON.
  destruct (isJSON r), (text r) as [t|reason]; try done.
  destruct (String.eqb t ""); [done|]. by destruct (JSON_parse t).
Qed.

(** C10, as amended: a [ResponseError] is what [fetchJSON] rejects with
    exactly when [fetch] resolved with a response whose body was obtained
    and whose [ok] is false, and it carries the status, the response and the
    body; [{response, body}] is returned exactly when the body was obtained
    and [ok] is true; when the body is not obtained ([text()] rejects, or
    the text of a JSON response is neither empty nor valid JSON)
    [fetchJSON] rejects with that failure, whatever [ok] is; the empty text
    of a JSON response gives the body [null]. *)
Theorem fetchJSON_status url options run :
  fetchJSON JSON_parse fetch url options = Some run ->
  exists fetchOptions,
    fetched run = [(url, fetchOptions)] /\
    (forall st r b,
       outcome run = Throw (ResponseError st r b) <->
       fetch url fetchOptions = FetchResolved r /\
       getResponseBody JSON_parse r = Return b /\
       ok r = false /\ st = status r) /\
    (forall r b,
       outcome run = Return {| response := r; body := b |} <->
       fetch url fetchOptions = FetchResolved r /\
       getResponseBody JSON_parse r = Return b /\
       ok r = true) /\
    (forall r e,
       fetch url fetchOptions = FetchResolved r ->
       getResponseBody JSON_parse r = Throw e ->
       outcome run = Throw e) /\
    (forall r,
       isJSON r = true -> text r = TextResolved "" ->
       getResponseBody JSON_parse r = Return VNull).
Proof.
  unfold fetchJSON. destruct (fetchOptions options) as [fo|]; [|done].
  intros [= <-]. exists fo. simpl. split; [done|].
  split; [|split; [|split]].
  - intros st r b. split.
    + destruct (fetch url fo) as [r0|reason]; [|done].
      destruct (getResponseBody JSON_parse r0) as [b0|e] eqn:Hb.
      * unfold checkStatus. destruct (ok r0) eqn:Hok; [done|].
        intros [= <- <- <-]. done.
      * intros [= ->]. by apply getResponseBody_not_ResponseError in Hb.
    + intros (-> & -> & Hok & ->). unfold checkStatus. by rewrite Hok.
  - intros r b. split.
    + destruct (fetch url fo) as [r0|reason]; [|done].
      destruct (getResponseBody JSON_parse r0) as [b0|e] eqn:Hb; [|done].
      unfold checkStatus. destruct (ok r0) eqn:Hok; [|done].
      intros [= <- <-]. done.
    + intros (-> & -> & Hok). unfold checkStatus. by rewrite Hok.
  - intros r e -> ->. done.
  - intros r Hjson Htext. unfold getResponseBody. rewrite Hjson, Htext. done.
Qed.

End Options.

(** ** The inputs of the test suite *)

Lemma fetchJSON_options_witness :
  (exists run,
     fetchJSON JSON.parse (fun _ _ => FetchResolved emptyJSON)
       (VStr "/api/test") getOptions = Some run /\
     fetched run = [(VStr "/api/test", VObj getOptions)]) /\
  (exists run merged,
     fetchJSON JSON.parse (fun _ _ => FetchResolved emptyJSON)
       (VStr "/api/update") putOptions = Some run /\
     merge defaults putOptions = Some merged /\
     fetched run = [(VStr "/api/update", VObj merged)] /\
     (forall key, key <> "headers" -> getProp key merged = getProp key putOptions) /\
     mergedHeaders (getProp "headers" putOptions) (getProp "headers" merged)).
Proof.
  split.
  - apply (fetchJSON_options JSON.parse (fun _ _ => FetchResolved emptyJSON)
             (VStr "/api/test") getOptions). reflexivity.
  - apply (fetchJSON_options JSON.parse (fun _ _ => FetchResolved emptyJSON)
             (VStr "/api/update") putOptions).
    + simpl. discriminate.
    + reflexivity.
Defined.

(** The call of the test 'should preserve existing headers while adding
    Content-Type'. *)
Example put_options :
  fetchOptions putOptions =
  Some (VObj [("headers", VObj [("Content-Type", VStr "application/json");
                                ("Authorization", VStr "Bearer token123");
                                ("X-Custom-Header", VStr "custom-value")]);
              ("method", VStr "PUT");
              ("body", VStr "{id:1}")]).
Proof. reflexivity. Qed.

Lemma fetchJSON_status_witness :
  exists run,
    fetchJSON JSON.parse (fun _ _ => FetchResolved notFound)
      (VStr "/api/notfound") getOptions = Some run /\
    outcome run = Throw (ResponseError 404 notFound (VObj [])).
Proof.
  eexists. split; [reflexivity|].
  destruct (fetchJSON_status JSON.parse (fun _ _ => FetchResolved notFound)
              (VStr "/api/notfound") getOptions _ eq_refl)
    as (fo & _ & Herr & _).
  apply Herr. repeat split; reflexivity.
Defined.

(** The other responses of the test suite. *)
Example not_found_with_body :
  exists run,
    fetchJSON JSON.parse (fun _ _ => FetchResolved notFoundWithBody)
      (VStr "/api/notfound") [] = Some run /\
    outcome run =
      Throw (ResponseError 404 notFoundWithBody
               (VObj [("error", VStr "Not found"); ("code", VNum "404")])).
Proof. eexists. split; [reflexivity|]. by vm_compute. Qed.

Example plain_text_body :
  exists run,
    fetchJSON JSON.parse (fun _ _ => FetchResolved plainText)
      (VStr "/api/text") [] = Some run /\
    outcome run =
      Return {| response := plainText; body := VStr "Plain text response" |}.
Proof. eexists. split; [reflexivity|]. by vm_compute. Qed.

Example charset_json_body :
  exists run,
    fetchJSON JSON.parse (fun _ _ => FetchResolved charsetJSON)
      (VStr "/api/charset") [] = Some run /\
    outcome run =
      Return {| response := charsetJSON;
                body := VObj [("message", VStr "success")] |}.
Proof. eexists. split; [reflexivity|]. by vm_compute. Qed.

Example empty_json_body :
  exists run,
    fetchJSON JSON.parse (fun _ _ => FetchResolved emptyJSON)
      (VStr "/api/empty") [] = Some run /\
    outcome run = Return {| response := emptyJSON; body := VNull |}.
Proof. eexists. split; [reflexivity|]. by vm_compute. Qed.

(** C10, as stated, fails on the response of the test 'should throw
    descriptive error for invalid JSON': [ok] is true and [fetchJSON] does
    not return; and on the same body with [ok] false, where it rejects with
    the [Error] of [tryParseJSON], not with a [ResponseError]. *)
Lemma invalid_json_rejects :
  (exists run,
     fetchJSON JSON.parse (fun _ _ => FetchResolved invalidJSON)
       (VStr "/api/invalid") [] = Some run /\
     ok invalidJSON = true /\
     outcome run =
       Throw (Error "Failed to parse unexpected JSON response: { invalid json }")) /\
  (exists run,
     fetchJSON JSON.parse (fun _ _ => FetchResolved invalidJSONNotFound)
       (VStr "/api/invalid") [] = Some run /\
     ok invalidJSONNotFound = false /\
     outcome run =
       Throw (Error "Failed to parse unexpected JSON response: { invalid json }")).
Proof.
  split.
  - eexists. split; [reflexivity|]. split; [reflexivity|]. by vm_compute.
  - eexists. split; [reflexivity|]. split; [reflexivity|]. by vm_compute.
Qed.

End FetchJSONSpec.

(** * The coordinator: further properties *)

Module RefreshFetchMore.

Import Coordinator RefreshFetchSpec.

Section More.

Context {Url Opts Val : Type}.
Variable shouldRefreshToken : Val -> bool.
Variable refreshTokenThrows : nat -> option Val.

Local Abbreviation State := (@State Url Opts Val).
Local Abbreviation Call := (@Call Url Opts Val).
Local Abbreviation Action := (@Action Url Opts Val).
Local Abbreviation init := (@init Url Opts Val).
Local Abbreviation step := (@step Url Opts Val shouldRefreshToken refreshTokenThrows).
Local Abbreviation run := (@run Url Opts Val shouldRefreshToken refreshTokenThrows).
Local Abbreviation reachable :=
  (@reachable Url Opts Val shouldRefreshToken refreshTokenThrows).

Implicit Types (s : State) (c : Call) (a : Action).

(** Induction over the schedules that lead to a state. *)
Lemma reachable_ind (P : State -> Prop) :
  P init ->
  (forall s a s', reachable s -> P s -> step s a = Some s' -> P s') ->
  forall s, reachable s -> P s.
Proof.
  intros Hinit Hstep s [acts Hrun]. revert s Hrun.
  induction acts as [|a acts IH] using rev_ind; intros s Hrun.
  - injection Hrun as <-. exact Hinit.
  - apply run_snoc in Hrun as (s1 & Hrun & Hs).
    eapply Hstep; [by exists acts | by apply IH | exact Hs].
Qed.

Ltac paths Hs Hc :=
  let Hok := fresh "Hok" in
  pose proof (reachable_callOk _ _ _ _ _ Hs Hc) as Hok;
  match type of Hc with
  | _ !! _ = Some ?c =>
      let b := fresh "b" in
      destruct c as [? ? ? ?]; unfold Coordinator.callOk, enteredWith in *;
      simpl in *; inversion Hok as
        [ | ? | ? ? | ? ? b ? | ? ? b ? | ? ? b ? ? | ? ? b ? ? | ? ? b ? ?
        | ? | ? | ? ? | ? ? | ? ? ? | ? ? | ? ? ? ];
      subst; try destruct b; simpl in *; simplify_eq
  end.

Ltac settles Hc :=
  simpl; unfold fetchSettles; rewrite Hc; simpl;
  eexists; eexists; (split; [reflexivity|]);
  (split; [by eapply lookup_setCall|]); simpl; done.

(** X1: an invocation never calls the transport more than twice, and always
    with its own url and options; it calls [shouldRefreshToken] at most once
    and [refreshToken] at most once. *)
Theorem bounded_effects s i c :
  reachable s ->
  calls s !! i = Some c ->
  length (fetchesOf (hist c)) <= 2 /\
  Forall (fun call => call = (url c, options c)) (fetchesOf (hist c)) /\
  length (shouldRefreshArgs (hist c)) <= 1 /\
  length (refreshesOf (hist c)) <= 1.
Proof.
  intros Hs Hc. paths Hs Hc;
    (split; [lia|]); (split; [by repeat constructor|]); split; lia.
Qed.

(** X2: what an invocation settles with is always the outcome of one of its
    own transport calls, and a success is always the outcome of its last
    one. *)
Theorem result_provenance s i c r :
  reachable s ->
  calls s !! i = Some c ->
  pc c = Settled r ->
  In r (fetchOutcomes (hist c)) /\
  (forall v, r = Resolved v -> last (fetchOutcomes (hist c)) = Some r).
Proof.
  intros Hs Hc Hr. paths Hs Hc;
    (split; [simpl; tauto | intros v' Hv'; simplify_eq; done]).
Qed.

(** X4: a bystander whose transport call fails after a successful refresh
    has called the transport once more with the same arguments, without
    asking [shouldRefreshToken] and without a refresh of its own.  It awaits
    that second call, and then the call's outcome, a success or a failure,
    is what the invocation settles with, with no third call; or it has
    settled, with the outcome of the second call. *)
Theorem bystander_second_attempt s i c p e :
  reachable s ->
  calls s !! i = Some c ->
  enteredWith c = Some (Some p) ->
  awaitedOf (hist c) = [RefreshOk] ->
  head (fetchOutcomes (hist c)) = Some (Rejected e) ->
  fetchesOf (hist c) = [(url c, options c); (url c, options c)] /\
  shouldRefreshArgs (hist c) = [] /\
  refreshesOf (hist c) = [] /\
  match pc c with
  | WaitFetchBystanderCatch =>
      fetchOutcomes (hist c) = [Rejected e] /\
      forall r, exists s' c',
        step s (FetchSettles i r) = Some s' /\
        calls s' !! i = Some c' /\
        pc c' = Settled r /\
        fetchesOf (hist c') = [(url c, options c); (url c, options c)] /\
        fetchOutcomes (hist c') = [Rejected e; r] /\
        shouldRefreshArgs (hist c') = []
  | Settled r => fetchOutcomes (hist c) = [Rejected e; r]
  | _ => False
  end.
Proof.
  intros Hs Hc He Hok' Hout. paths Hs Hc;
    (split; [done|]); (split; [done|]); (split; [done|]); try done.
  split; [done|]. intros [v|e']; settles Hc.
Qed.

(** A settled handle stays settled, and a handle an invocation awaited has
    settled with the result the invocation saw. *)
Lemma awaited_settled s :
  reachable s ->
  forall i c p r,
    calls s !! i = Some c -> In (EvAwaited p r) (hist c) ->
    promises s !! p = Some (Some r).
Proof.
  intros Hs. revert s Hs.
  apply (reachable_ind (fun s => forall i c p r,
    calls s !! i = Some c -> In (EvAwaited p r) (hist c) ->
    promises s !! p = Some (Some r))).
  - intros i c p r Hc. simpl in Hc. by rewrite lookup_nil in Hc.
  - intros s a s' Hs IH Hstep.
    assert (Hkeep : forall p r, promises s !! p = Some (Some r) ->
                                promises s' !! p = Some (Some r)).
    { intros p r Hp.
      destruct (step_handle_change _ _ _ _ _ Hstep) as
        [_ Hp' _|_ _ Hp' _|p0 r0 Hsome Hpend _ Hp' _ _]; rewrite Hp'.
      - done.
      - rewrite lookup_app_l; [done | by eapply lookup_lt_Some].
      - rewrite list_lookup_insert_ne; [done|].
        intros <-. congruence. }
    assert (Hold : forall d evs pc' j p r,
      calls s !! j = Some d ->
      (forall q y, ~ In (EvAwaited q y) evs) ->
      In (EvAwaited p r) (hist (advance d pc' evs)) ->
      promises s' !! p = Some (Some r)).
    { intros d evs pc' j p r Hd Hno Hin. simpl in Hin.
      apply in_app_or in Hin as [Hin|Hin].
      - eapply Hkeep, IH; eauto.
      - by apply Hno in Hin. }
    intros i c p r Hc Hin.
    destruct a as [u o|j x|x|j]; simpl in Hstep.
    + injection Hstep as <-. simpl in *.
      apply lookup_app_Some in Hc as [Hc|[_ Hc]]; [by eapply IH|].
      apply list_lookup_singleton_Some in Hc as [_ <-].
      destruct (refreshingTokenPromise s); simpl in Hin;
        repeat (destruct Hin as [Hin|Hin]; [discriminate Hin|]); done.
    + unfold fetchSettles in Hstep.
      destruct (calls s !! j) as [d|] eqn:Hd; [|done].
      destruct (pc d), x as [v|e];
        try discriminate;
        repeat match type of Hstep with
               | context [shouldRefreshToken ?e] =>
                   destruct (shouldRefreshToken e) eqn:?
               | context [refreshingTokenPromise ?s] =>
                   destruct (refreshingTokenPromise s) eqn:?
               end;
        injection Hstep as <-; simpl in Hc;
        (apply list_lookup_insert_Some in Hc as [(<- & <- & _)|(Hne & Hc)];
         [eapply Hold; [exact Hd | | exact Hin];
          simpl; intros q y Hq;
          repeat (destruct Hq as [Hq|Hq]; [discriminate Hq|]); exact Hq
         | eapply Hkeep, IH; eauto]).
    + eapply Hkeep, IH; [|exact Hin].
      unfold refreshSettles in Hstep.
      destruct (refreshingTokenPromise s) as [p0|]; [|done].
      destruct (promises s !! p0) as [[?|]|]; try done.
      injection Hstep as <-. exact Hc.
    + unfold resume in Hstep.
      destruct (calls s !! j) as [d|] eqn:Hd; [|done].
      destruct (pc d) as [p0| | | |p0 e0|e0|r0]; try discriminate;
        destruct (promises s !! p0) as [[[|re]|]|] eqn:Hp0; try discriminate;
        injection Hstep as <-; simpl in Hc;
        (apply list_lookup_insert_Some in Hc as [(<- & <- & _)|(Hne & Hc)];
         [|by eapply IH]);
        simpl in Hin; apply in_app_or in Hin as [Hin|Hin];
        try (by eapply IH); simpl in Hin;
        repeat (destruct Hin as [Hin|Hin];
                [first [discriminate Hin | by injection Hin as <- <-]|]);
        done.
Qed.

(** X5: all the invocations that awaited one handle saw the same result,
    the one recorded for that handle. *)
Theorem awaiters_agree s i j c d p r r' :
  reachable s ->
  calls s !! i = Some c ->
  calls s !! j = Some d ->
  In (EvAwaited p r) (hist c) ->
  In (EvAwaited p r') (hist d) ->
  r = r' /\ promises s !! p = Some (Some r).
Proof.
  intros Hs Hc Hd Hin Hin'.
  pose proof (awaited_settled s Hs _ _ _ _ Hc Hin) as H1.
  pose proof (awaited_settled s Hs _ _ _ _ Hd Hin') as H2.
  split; [congruence | done].
Qed.

(** The handle an invocation awaits has been installed. *)
Lemma awaits_installed s :
  reachable s ->
  forall i c p, calls s !! i = Some c -> awaits c = Some p ->
    p < length (promises s).
Proof.
  intros Hs. revert s Hs.
  apply (reachable_ind (fun s => forall i c p,
    calls s !! i = Some c -> awaits c = Some p -> p < length (promises s))).
  - intros i c p Hc. simpl in Hc. by rewrite lookup_nil in Hc.
  - intros s a s' Hs IH Hstep.
    pose proof (Inv_reachable _ _ _ Hs) as [_ [_ Hheld] _].
    assert (Hlen : length (promises s) <= length (promises s')).
    { destruct (step_handle_change _ _ _ _ _ Hstep) as
        [_ Hp' _|_ _ Hp' _|p0 r0 _ _ _ Hp' _ _]; rewrite Hp'.
      - done.
      - rewrite length_app. simpl. lia.
      - by rewrite length_insert. }
    assert (Hcur : forall q, refreshingTokenPromise s = Some q ->
                             q < length (promises s)).
    { intros q Hq. apply Hheld in Hq as [Hq|(n & thrown & _ & Hq)];
        by eapply lookup_lt_Some. }
    intros i c p Hc Haw. unfold awaits in Haw.
    destruct a as [u o|j x|x|j]; simpl in Hstep.
    + injection Hstep as <-. simpl in *.
      apply lookup_app_Some in Hc as [Hc|[_ Hc]]; [by eapply IH|].
      apply list_lookup_singleton_Some in Hc as [_ <-].
      destruct (refreshingTokenPromise s) eqn:Hq; simpl in Haw; [|done].
      injection Haw as <-. by apply Hcur.
    + unfold fetchSettles in Hstep.
      destruct (calls s !! j) as [d|] eqn:Hd; [|done].
      destruct (pc d), x as [v|e];
        try discriminate;
        repeat match type of Hstep with
               | context [shouldRefreshToken ?e] =>
                   destruct (shouldRefreshToken e) eqn:?
               | context [refreshingTokenPromise ?s] =>
                   destruct (refreshingTokenPromise s) eqn:?
               end;
        injection Hstep as <-; simpl in Hc, Hlen |- *;
        (apply list_lookup_insert_Some in Hc as [(<- & <- & _)|(Hne & Hc)];
         [simpl in Haw; simplify_eq
         | eapply Nat.lt_le_trans; [by eapply IH | done]]).
      * by apply Hcur.
      * rewrite length_app. simpl. lia.
    + eapply Nat.lt_le_trans; [|exact Hlen].
      unfold refreshSettles in Hstep.
      destruct (refreshingTokenPromise s) as [p0|]; [|done].
      destruct (promises s !! p0) as [[?|]|]; try done.
      injection Hstep as <-. simpl in Hc. by eapply IH.
    + unfold resume in Hstep.
      destruct (calls s !! j) as [d|] eqn:Hd; [|done].
      destruct (pc d); try discriminate;
        destruct (promises s !! p0) as [[[|re]|]|] eqn:Hp0; try discriminate;
        injection Hstep as <-; simpl in Hc |- *;
        (apply list_lookup_insert_Some in Hc as [(<- & <- & _)|(Hne & Hc)];
         [simpl in Haw; simplify_eq | by eapply IH]).
Qed.

(** ** Every invocation can finish *)

(** There is a schedule from [s], made of the settling of the refresh with
    [rr], of resumptions of the invocation [i] and of the settling of its
    transport calls with [r], after which the invocation has settled. *)
Local Abbreviation finishes s i rr r :=
  (exists acts s' c' result,
     Forall (fun a => a = RefreshSettles rr \/ a = Resume i \/
                      a = FetchSettles i r) acts /\
     run s acts = Some s' /\
     calls s' !! i%nat = Some c' /\
     pc c' = Settled result).

Lemma finishes_step s a s1 i rr r :
  step s a = Some s1 ->
  a = RefreshSettles rr \/ a = Resume i \/ a = FetchSettles i r ->
  finishes s1 i rr r ->
  finishes s i rr r.
Proof.
  intros Hstep Ha (acts & s' & c' & result & Hall & Hrun & Hc & Hpc).
  exists (a :: acts), s', c', result. split; [by constructor|].
  split; [simpl; by rewrite Hstep | done].
Qed.

Lemma finishes_settled s i c rr r result :
  calls s !! i = Some c -> pc c = Settled result -> finishes s i rr r.
Proof. intros Hc Hpc. exists [], s, c, result. by repeat split. Qed.

(** Lines 26 and 53: the last transport call of an invocation. *)
Lemma finishes_last_fetch s i c rr r :
  calls s !! i = Some c ->
  pc c = WaitFetchBystanderCatch \/ (exists e, pc c = WaitRetry e) ->
  finishes s i rr r.
Proof.
  intros Hc Hpc.
  assert (exists result,
    step s (FetchSettles i r) =
      Some (setCall s i (advance c (Settled result) [EvFetchSettled r])))
    as [result Hstep].
  { simpl. unfold fetchSettles. rewrite Hc.
    destruct Hpc as [->|[e ->]]; destruct r as [v|e']; eauto. }
  eapply finishes_step; [exact Hstep | by right; right |].
  eapply finishes_settled; [by eapply lookup_setCall | done].
Qed.

(** Line 22: a failure is followed by the transport call of line 26. *)
Lemma finishes_first_fetch s i c rr r :
  calls s !! i = Some c ->
  pc c = WaitFetchBystander ->
  finishes s i rr r.
Proof.
  intros Hc Hpc. destruct r as [v|e].
  - eapply finishes_step; [|by right; right|].
    + simpl. unfold fetchSettles. rewrite Hc, Hpc. reflexivity.
    + eapply finishes_settled; [by eapply lookup_setCall | done].
  - eapply finishes_step; [|by right; right|].
    + simpl. unfold fetchSettles. rewrite Hc, Hpc. reflexivity.
    + eapply finishes_last_fetch; [by eapply lookup_setCall | by left].
Qed.

(** Lines 21 and 51, once the handle has settled. *)
Lemma finishes_resume s i c p x rr r :
  calls s !! i = Some c ->
  awaits c = Some p ->
  promises s !! p = Some (Some x) ->
  finishes s i rr r.
Proof.
  intros Hc Haw Hp. unfold awaits in Haw.
  destruct (pc c) as [p'| | | |p' e| |] eqn:Hpc; simplify_eq.
  - destruct x as [|re]; (eapply finishes_step; [|by right; left|]).
    + simpl. unfold resume. rewrite Hc, Hpc, Hp. reflexivity.
    + eapply finishes_first_fetch; [by eapply lookup_setCall | done].
    + simpl. unfold resume. rewrite Hc, Hpc, Hp. reflexivity.
    + eapply finishes_last_fetch; [by eapply lookup_setCall | by left].
  - destruct x as [|re]; (eapply finishes_step; [|by right; left|]).
    + simpl. unfold resume. rewrite Hc, Hpc, Hp. reflexivity.
    + eapply finishes_last_fetch; [by eapply lookup_setCall | right; by eexists].
    + simpl. unfold resume. rewrite Hc, Hpc, Hp. reflexivity.
    + eapply finishes_settled; [by eapply lookup_setCall | done].
Qed.

(** Lines 21 and 51: a handle that is awaited has settled, or is the one
    that [refreshToken] can still settle. *)
Lemma finishes_await s i c p rr r :
  reachable s ->
  calls s !! i = Some c ->
  awaits c = Some p ->
  finishes s i rr r.
Proof.
  intros Hs Hc Haw.
  pose proof (awaits_installed s Hs i c p Hc Haw) as Hlt.
  apply lookup_lt_is_Some in Hlt as [[x|] Hp].
  - by eapply finishes_resume.
  - pose proof (Inv_reachable _ _ _ Hs) as [_ [Hpend _] _].
    eapply finishes_step; [|by left|].
    + simpl. unfold refreshSettles. rewrite (Hpend p Hp), Hp. reflexivity.
    + eapply (finishes_resume _ i c p rr); [exact Hc | exact Haw |].
      simpl. apply list_lookup_insert_eq. by eapply lookup_lt_Some.
Qed.

(** X6 (no invocation is stuck): from every reachable state every
    invocation can be taken to its end.  Whatever result [rr] the pending
    refresh is going to have and whatever outcome [r] the transport calls
    of the invocation are going to have, there is a schedule that only
    settles the refresh with [rr], resumes the invocation and settles its
    transport calls with [r], and after which the invocation has settled. *)
Theorem no_invocation_stuck s i c rr r :
  reachable s ->
  calls s !! i = Some c ->
  exists acts s' c' result,
    Forall (fun a => a = RefreshSettles rr \/ a = Resume i \/
                     a = FetchSettles i r) acts /\
    run s acts = Some s' /\
    calls s' !! i = Some c' /\
    pc c' = Settled result.
Proof.
  intros Hs Hc.
  destruct (pc c) as [p| | | |p e|e|result] eqn:Hpc.
  - eapply finishes_await; [exact Hs | exact Hc | by unfold awaits; rewrite Hpc].
  - by eapply finishes_first_fetch.
  - eapply finishes_last_fetch; [exact Hc | by left].
  - destruct (step s (FetchSettles i r)) as [s1|] eqn:Hstep.
    2:{ simpl in Hstep. unfold fetchSettles in Hstep. rewrite Hc, Hpc in Hstep.
        destruct r as [v|e]; [done|].
        destruct (shouldRefreshToken e), (refreshingTokenPromise s); done. }
    eapply finishes_step; [exact Hstep | by right; right |].
    pose proof (reachable_step _ _ _ _ _ Hs Hstep) as Hs1.
    simpl in Hstep. unfold fetchSettles in Hstep. rewrite Hc, Hpc in Hstep.
    destruct r as [v|e].
    + injection Hstep as <-.
      eapply finishes_settled; [by eapply lookup_setCall | done].
    + destruct (shouldRefreshToken e).
      * assert (exists p c1, calls s1 !! i = Some c1 /\ awaits c1 = Some p)
          as (p & c1 & Hc1 & Haw).
        { destruct (refreshingTokenPromise s) as [p|]; injection Hstep as <-;
            eexists; eexists; (split; [by eapply lookup_setCall|]); done. }
        by eapply finishes_await.
      * injection Hstep as <-.
        eapply finishes_settled; [by eapply lookup_setCall | done].
  - eapply finishes_await; [exact Hs | exact Hc | by unfold awaits; rewrite Hpc].
  - eapply finishes_last_fetch; [exact Hc | right; by eexists].
  - by eapply finishes_settled.
Qed.

End More.

Section MoreRuns.

Import Scenarios.

Local Open Scope string_scope.

Lemma bounded_effects_witness :
  exists s c,
    run isTokenExpired returnsPromise start retryFails = Some s /\
    calls s !! 0 = Some c /\
    length (fetchesOf (hist c)) <= 2 /\
    Forall (fun call => call = (url c, options c)) (fetchesOf (hist c)) /\
    length (shouldRefreshArgs (hist c)) <= 1 /\
    length (refreshesOf (hist c)) <= 1.
Proof.
  eexists. eexists. split; [vm_compute; reflexivity|].
  split; [vm_compute; reflexivity|].
  refine (bounded_effects isTokenExpired returnsPromise _ 0 _ _ _).
  - exists retryFails. reflexivity.
  - reflexivity.
Defined.

Lemma result_provenance_witness :
  exists s c,
    run isTokenExpired returnsPromise start bystanderFetchFails = Some s /\
    calls s !! 1 = Some c /\
    In (Resolved "success") (fetchOutcomes (hist c)) /\
    (forall v, Resolved "success" = Resolved v ->
       last (fetchOutcomes (hist c)) = Some (Resolved "success")).
Proof.
  eexists. eexists. split; [vm_compute; reflexivity|].
  split; [vm_compute; reflexivity|].
  refine (result_provenance isTokenExpired returnsPromise _ 1 _ _ _ _ _).
  - exists bystanderFetchFails. reflexivity.
  - reflexivity.
  - reflexivity.
Defined.


Lemma bystander_second_attempt_witness :
  exists s,
    run isTokenExpired returnsPromise start (firstn 6 bystanderFetchFailsTwice)
      = Some s /\
    exists s' c',
      step isTokenExpired returnsPromise s
        (FetchSettles 1 (Rejected "Gateway timeout")) = Some s' /\
      calls s' !! 1 = Some c' /\
      pc c' = Settled (Rejected "Gateway timeout") /\
      fetchesOf (hist c') = [("/api/data2", "POST"); ("/api/data2", "POST")] /\
      fetchOutcomes (hist c') =
        [Rejected "Service unavailable"; Rejected "Gateway timeout"] /\
      shouldRefreshArgs (hist c') = [].
Proof.
  eexists. split; [vm_compute; reflexivity|].
  refine (proj2 (proj2 (proj2 (proj2
            (bystander_second_attempt isTokenExpired returnsPromise _ 1
               {| url := "/api/data2"; options := "POST";
                  pc := WaitFetchBystanderCatch; hist := _ |}
               0 "Service unavailable" _ _ _ _ _))))
            (Rejected "Gateway timeout")).
  - exists (firstn 6 bystanderFetchFailsTwice). reflexivity.
  - reflexivity.
  - reflexivity.
  - reflexivity.
  - reflexivity.
Defined.

Lemma awaiters_agree_witness :
  exists s,
    run isTokenExpired returnsPromise start bystanderFetchFails = Some s /\
    @RefreshOk string = RefreshOk /\
    promises s !! 0 = Some (Some (@RefreshOk string)).
Proof.
  eexists. split; [vm_compute; reflexivity|].
  refine (awaiters_agree isTokenExpired returnsPromise _ 0 1 _ _ 0
            RefreshOk RefreshOk _ _ _ _ _).
  - exists bystanderFetchFails. reflexivity.
  - reflexivity.
  - reflexivity.
  - simpl. tauto.
  - simpl. tauto.
Defined.

Lemma no_invocation_stuck_witness :
  exists s,
    run isTokenExpired returnsPromise start (firstn 3 bystanderFetchFails) = Some s /\
    exists acts s' c' result,
      Forall (fun a => a = RefreshSettles RefreshOk \/ a = Resume 1 \/
                       a = FetchSettles 1 (Rejected "Service unavailable")) acts /\
      run isTokenExpired returnsPromise s acts = Some s' /\
      calls s' !! 1 = Some c' /\
      pc c' = Settled result.
Proof.
  eexists. split; [vm_compute; reflexivity|].
  refine (no_invocation_stuck isTokenExpired returnsPromise _ 1 _ RefreshOk
            (Rejected "Service unavailable") _ _).
  - exists (firstn 3 bystanderFetchFails). reflexivity.
  - reflexivity.
Defined.

Lemma no_auth_failure_no_refresh_witness :
  exists s,
    run isTokenExpired returnsPromise start otherFailure = Some s /\
    refreshTokenCalls s = refreshTokenCalls start /\
    refreshingTokenPromise s = None.
Proof.
  eexists. split; [vm_compute; reflexivity|].
  refine (no_auth_failure_no_refresh isTokenExpired returnsPromise otherFailure
            start _ _ _ _).
  - intros i e [H|[H|[]]]; [discriminate H|]. by injection H as <- <-.
  - reflexivity.
  - reflexivity.
Defined.

End MoreRuns.

End RefreshFetchMore.

(** * [fetchJSON]: further properties *)

Module FetchJSONMore.

Import JS Lodash FetchJSON Copy FetchJSONSpec.

Local Open Scope string_scope.

(** ** [includes] finds substrings *)

Lemma prefix_app sub : forall s,
  String.prefix sub s = true <-> exists post, s = sub ++ post.
Proof.
  induction sub as [|a sub IH]; intros s; simpl.
  - split; [eauto | by destruct s].
  - destruct s as [|b s]; simpl.
    + split; [done | intros [post H]; discriminate H].
    + destruct (ascii_dec a b) as [->|Hne].
      * rewrite IH. split; intros [post H]; exists post; congruence.
      * split; [done | intros [post H]; congruence].
Qed.

Lemma includes_spec sub : forall s,
  includes s sub = true <-> exists pre post, s = pre ++ sub ++ post.
Proof.
  intros s. split.
  - induction s as [|c s IH]; cbn [includes].
    + destruct (String.prefix sub "") eqn:Hp; [|done]. intros _.
      apply prefix_app in Hp as [post Hp]. by exists "", post.
    + destruct (String.prefix sub (String c s)) eqn:Hp.
      * intros _. apply prefix_app in Hp as [post Hp]. by exists "", post.
      * intros H. destruct (IH H) as (pre & post & ->).
        by exists (String c pre), post.
  - intros (pre & post & ->). induction pre as [|c pre IH].
    + assert (Hp : String.prefix sub (sub ++ post) = true)
        by (apply prefix_app; eauto).
      change ("" ++ sub ++ post) with (sub ++ post).
      destruct (sub ++ post); cbn [includes]; by rewrite Hp.
    + change (String c pre ++ sub ++ post)
        with (String c (pre ++ sub ++ post)).
      cbn [includes]. rewrite IH. by destruct (String.prefix _ _).
Qed.

(** X7: the body of a response is given to [JSON.parse] exactly when the
    [content-type] header contains ["json"] somewhere, in lower case; the
    text of any other response, and of a response without the header, is
    returned as a string, whatever it holds. *)
Theorem getResponseBody_kind JSON_parse r t :
  text r = TextResolved t ->
  ((exists ct pre post, contentType r = Some ct /\ ct = pre ++ "json" ++ post) ->
   getResponseBody JSON_parse r = tryParseJSON JSON_parse t) /\
  (~ (exists ct pre post, contentType r = Some ct /\ ct = pre ++ "json" ++ post) ->
   getResponseBody JSON_parse r = Return (VStr t)).
Proof.
  intros Ht. unfold getResponseBody, isJSON. rewrite Ht. split.
  - intros (ct & pre & post & -> & Hct).
    assert (Hin : includes ct "json" = true) by (apply includes_spec; eauto).
    by rewrite Hin.
  - intros Hno. destruct (contentType r) as [ct|]; [|done].
    destruct (includes ct "json") eqn:Hin; [|done].
    exfalso. apply Hno. apply includes_spec in Hin as (pre & post & ->). eauto.
Qed.

(** ** The keys of a merged object *)






(** ** Copies *)

Lemma value_rect' (P : value -> Prop) :
  P VUndefined -> P VNull -> (forall b, P (VBool b)) ->
  (forall n, P (VNum n)) -> (forall x, P (VStr x)) ->
  (forall elems, Forall P elems -> P (VArr elems)) ->
  (forall object, Forall (fun kv => P (snd kv)) object -> P (VObj object)) ->
  (forall kind content, P (VBytes kind content)) ->
  (forall i, P (VInst i)) ->
  forall v, P v.
Proof.
  intros Hu Hn Hb Hnum Hs Ha Ho Hy Hi.
  fix IH 1. intros v. destruct v as [| |b|n|x|elems|object|kind content|i].
  - exact Hu.
  - exact Hn.
  - apply Hb.
  - apply Hnum.
  - apply Hs.
  - apply Ha. induction elems as [|e elems IHe]; constructor;
      [apply IH | exact IHe].
  - apply Ho. induction object as [|[k w] object IHo]; constructor;
      [apply IH | exact IHo].
  - apply Hy.
  - apply Hi.
Qed.

Lemma setProp_fresh key v object :
  hasKey key object = false -> setProp key v object = (object ++ [(key, v)])%list.
Proof.
  induction object as [|[k w] rest IH]; simpl; [done|].
  destruct (String.eqb k key); [done|]. intros H. by rewrite IH.
Qed.

Lemma hasKey_app key object object' :
  hasKey key (object ++ object')%list = hasKey key object || hasKey key object'.
Proof.
  induction object as [|[k w] rest IH]; simpl; [done|].
  by destruct (String.eqb k key).
Qed.

(** Properties that do not exist yet are added in order. *)
Lemma mergeProps_fresh rec : forall source object,
  uniqueKeys source = true ->
  (forall key v, In (key, v) source ->
     hasKey key object = false /\
     protoKey key && negb (isDefinedPrimitive v) = false /\
     rec VUndefined v = Some v) ->
  mergeProps rec object source = Some (object ++ source)%list.
Proof.
  induction source as [|[k v] rest IH]; intros object Huniq Hall; simpl.
  - by rewrite app_nil_r.
  - simpl in Huniq. apply andb_true_iff in Huniq as [Hk Huniq].
    apply negb_true_iff in Hk.
    destruct (Hall k v (or_introl eq_refl)) as (Hfresh & -> & Hrec).
    rewrite (hasKey_getProp _ _ Hfresh), Hrec.
    assert (Hassign : assignMergeValue object k v = (object ++ [(k, v)])%list).
    { destruct v; simpl; rewrite ?Hfresh; by apply setProp_fresh. }
    rewrite Hassign, IH; [by rewrite <- app_assoc | done |].
    intros key w Hin. destruct (Hall key w (or_intror Hin)) as (Hf & Hp & Hr).
    split; [|done]. rewrite hasKey_app, Hf. simpl.
    destruct (String.eqb_spec k key) as [<-|]; [|done].
    apply In_hasKey in Hin. congruence.
Qed.

Lemma mergeElems_fresh rec : forall source,
  Forall (fun v => rec VUndefined v = Some v) source ->
  mergeElems rec [] source = Some source.
Proof.
  induction source as [|v rest IH]; intros Hall; simpl; [done|].
  apply Forall_cons in Hall as [Hv Hall]. by rewrite Hv, IH.
Qed.

(** Against a destination value that is not an object, [baseMergeDeep]
    assigns a copy of a clean source value. *)
Lemma mergeDeep_copy v : forall objValue,
  clean v = true -> notObject objValue = true ->
  mergeDeep objValue v = Some v.
Proof.
  induction v as [| | | | |elems IH|object IH| |] using value_rect';
    intros objValue Hclean Hno; try done; try (by destruct objValue).
  - assert (Hcopy : mergeElems mergeDeep [] elems = Some elems).
    { apply mergeElems_fresh. simpl in Hclean.
      rewrite forallb_forall in Hclean. rewrite Forall_forall in IH |- *.
      intros e He. apply IH; [exact He | | done].
      apply Hclean. by apply list_elem_of_In. }
    destruct objValue; try done; simpl; by rewrite Hcopy.
  - assert (Hcopy : mergeProps mergeDeep [] object = Some object).
    { simpl in Hclean. apply andb_true_iff in Hclean as [Huniq Hall].
      rewrite forallb_forall in Hall. rewrite Forall_forall in IH.
      rewrite (mergeProps_fresh mergeDeep object [] Huniq); [done|].
      intros key w Hin. specialize (Hall _ Hin). simpl in Hall.
      apply andb_true_iff in Hall as [Hp Hc]. apply negb_true_iff in Hp.
      split; [done|]. split; [done|].
      apply (IH (key, w)); [by apply list_elem_of_In | done | done]. }
    destruct objValue; try done; simpl; by rewrite Hcopy.
Qed.

Lemma clean_In object key v :
  clean (VObj object) = true -> In (key, v) object ->
  protoKey key && negb (isDefinedPrimitive v) = false /\ clean v = true.
Proof.
  simpl. intros Hclean Hin. apply andb_true_iff in Hclean as [_ Hall].
  rewrite forallb_forall in Hall. specialize (Hall _ Hin). simpl in Hall.
  apply andb_true_iff in Hall as [Hp Hc]. by apply negb_true_iff in Hp.
Qed.

(** The caller's headers, whatever they are, merge with the default ones. *)
Lemma mergeDeep_default_headers v :
  clean v = true ->
  is_Some (mergeDeep (VObj [("Content-Type", VStr "application/json")]) v).
Proof.
  intros Hclean. destruct v as [| | | | |elems|object|kind content|i];
    simpl; eauto.
  - rewrite (mergeElems_fresh mergeDeep elems); [simpl; eauto|].
    simpl in Hclean. rewrite forallb_forall in Hclean.
    apply Forall_forall. intros e He.
    apply mergeDeep_copy; [|done]. apply Hclean. by apply list_elem_of_In.
  - pose proof Hclean as Huniq. simpl in Huniq.
    apply andb_true_iff in Huniq as [Huniq _].
    destruct (mergeProps_spec mergeDeep object
                [("Content-Type", VStr "application/json")] Huniq)
      as (merged & -> & _); [|simpl; eauto].
    intros key w Hin. destruct (clean_In _ _ _ Hclean Hin) as [Hp Hc].
    split; [done|]. rewrite mergeDeep_copy; [eauto | done |].
    unfold getProp. by destruct (String.eqb "Content-Type" key).
Qed.

(** X9: when the options have a body and are clean, [fetchJSON] does pass
    an object to [fetch], and every member of it other than [headers] has
    the caller's value: the same primitive value or the same instance, and
    for a plain object, an array, a [Buffer] or a typed array a copy that
    holds what the caller's holds, at any depth. *)
Theorem fetchOptions_members options :
  clean (VObj options) = true ->
  getProp "body" options <> VUndefined ->
  exists merged,
    fetchOptions options = Some (VObj merged) /\
    forall key, key <> "headers" -> getProp key merged = getProp key options.
Proof.
  intros Hclean Hbody. pose proof Hclean as Huniq. simpl in Huniq.
  apply andb_true_iff in Huniq as [Huniq _].
  assert (Hmember : forall key, key <> "headers" -> hasKey key options = true ->
    mergeDeep VUndefined (getProp key options) = Some (getProp key options)).
  { intros key Hne Hk. apply hasKey_In in Hk.
    destruct (clean_In _ _ _ Hclean Hk) as [_ Hc]. by apply mergeDeep_copy. }
  destruct (mergeProps_spec mergeDeep options defaults Huniq)
    as (merged & Hm & Hget).
  { intros key v Hin. destruct (clean_In _ _ _ Hclean Hin) as [Hp Hc].
    split; [done|]. rewrite getProp_defaults.
    destruct (String.eqb key "headers").
    - by apply mergeDeep_default_headers.
    - rewrite mergeDeep_copy; eauto. }
  exists merged. split.
  - unfold fetchOptions, merge. rewrite Hm.
    by destruct (getProp "body" options).
  - intros key Hne. rewrite Hget, getProp_defaults.
    destruct (String.eqb_spec key "headers"); [done|].
    destruct (hasKey key options) eqn:Hk.
    + rewrite (Hmember key Hne Hk). by destruct (getProp key options).
    + symmetry. by apply hasKey_getProp.
Qed.

Lemma getResponseBody_kind_witness :
  ((exists ct pre post,
      contentType charsetJSON = Some ct /\ ct = pre ++ "json" ++ post) ->
   getResponseBody JSON.parse charsetJSON =
     tryParseJSON JSON.parse
       ("{" ++ quoted "message" ++ ":" ++ quoted "success" ++ "}")) /\
  (~ (exists ct pre post,
        contentType plainText = Some ct /\ ct = pre ++ "json" ++ post) ->
   getResponseBody JSON.parse plainText = Return (VStr "Plain text response")).
Proof.
  split.
  - apply (getResponseBody_kind JSON.parse charsetJSON). reflexivity.
  - apply (getResponseBody_kind JSON.parse plainText). reflexivity.
Defined.


Lemma fetchOptions_members_witness :
  exists merged,
    fetchOptions [("method", VStr "POST");
                  ("body", VBytes "Uint8Array" "{}");
                  ("signal", VInst 1);
                  ("tags", VArr [VStr "a"; VObj [("deep", VNull)]])]
      = Some (VObj merged) /\
    forall key, key <> "headers" ->
      getProp key merged =
        getProp key [("method", VStr "POST");
                     ("body", VBytes "Uint8Array" "{}");
                     ("signal", VInst 1);
                     ("tags", VArr [VStr "a"; VObj [("deep", VNull)]])].
Proof.
  apply (fetchOptions_members
           [("method", VStr "POST");
            ("body", VBytes "Uint8Array" "{}");
            ("signal", VInst 1);
            ("tags", VArr [VStr "a"; VObj [("deep", VNull)]])]).
  - reflexivity.
  - simpl. discriminate.
Defined.

End FetchJSONMore.

(** * Environment detection: proofs *)

Module EnvironmentSpec.

Import JS Environment.

Local Open Scope string_scope.

Lemma detect_Consistent g env : detect g = Return env -> Consistent env.
Proof.
  unfold detect.
  destruct (detectReactNative g) as [reactNative|]; [|discriminate].
  destruct (nodeVersion g) as [node|]; [|discriminate].
  intros [= <-]. unfold Consistent. simpl.
  destruct reactNative; rewrite ?andb_false_r; auto.
  split; [discriminate|discriminate].
Qed.

(** What a call leaves in the variable: what was there, or a fresh
    detection's result when there was nothing. *)
Lemma detectEnvironment_cache g cache :
  snd (detectEnvironment g cache) = cache \/
  cache = None /\ exists env,
    detect g = Return env /\ detectEnvironment g cache = (Return env, Some env).
Proof.
  unfold detectEnvironment. destruct cache as [env|]; [by left|].
  destruct (detect g) as [env|e]; [right; eauto|by left].
Qed.

Lemma detectEnvironment_Some g env :
  detectEnvironment g (Some env) = (Return env, Some env).
Proof. done. Qed.

Lemma detectEnvironment_returns g cache env c :
  detectEnvironment g cache = (Return env, c) ->
  c = Some env /\ (cache = Some env \/ cache = None /\ detect g = Return env).
Proof.
  unfold detectEnvironment. destruct cache as [env'|].
  - intros [= <- <-]. auto.
  - destruct (detect g) as [env'|e]; intros [= <- <-]; auto.
Qed.

Lemma detectEnvironment_throws g cache e c :
  detectEnvironment g cache = (Throw e, c) ->
  cache = None /\ c = None /\ detect g = Throw e.
Proof.
  unfold detectEnvironment. destruct cache as [env'|]; [discriminate|].
  destruct (detect g) as [env'|e']; intros [= <- <-]; auto.
Qed.

Lemma snd_getPlatform g cache :
  snd (getPlatform g cache) = snd (detectEnvironment g cache).
Proof.
  unfold getPlatform. by destruct (detectEnvironment g cache) as [[env|e] c].
Qed.

Lemma snd_detectStorageCapabilities g cache :
  snd (detectStorageCapabilities g cache) = snd (detectEnvironment g cache).
Proof.
  unfold detectStorageCapabilities.
  by destruct (detectEnvironment g cache) as [[env|e] c].
Qed.

Lemma snd_validateFetchSupport g cache :
  snd (validateFetchSupport g cache) =
    if typeofDefined (fetch g) then cache else snd (detectEnvironment g cache).
Proof.
  unfold validateFetchSupport. destruct (typeofDefined (fetch g)); [done|].
  by destruct (detectEnvironment g cache) as [[env|e] c].
Qed.

Lemma getEnvironmentRecommendations_returns g cache :
  match detectEnvironment g cache with
  | (Return env, c) =>
      getEnvironmentRecommendations g cache =
        (let '(storageAdapter, features, optimizations) :=
           recommend env (capabilitiesOf g env) in
         Return {| platform := platformOf env;
                   storageAdapter := storageAdapter;
                   features := features;
                   optimizations := optimizations |}, c)
  | (Throw e, c) => getEnvironmentRecommendations g cache = (Throw e, c)
  end.
Proof.
  unfold getEnvironmentRecommendations.
  destruct (detectEnvironment g cache) as [[env|e] c] eqn:Hd; [|done].
  apply detectEnvironment_returns in Hd as [-> _].
  unfold detectStorageCapabilities, getPlatform.
  rewrite detectEnvironment_Some.
  by destruct (recommend env (capabilitiesOf g env)) as [[storageAdapter features] optimizations].
Qed.

Lemma snd_getEnvironmentRecommendations g cache :
  snd (getEnvironmentRecommendations g cache) = snd (detectEnvironment g cache).
Proof.
  pose proof (getEnvironmentRecommendations_returns g cache) as H.
  destruct (detectEnvironment g cache) as [[env|e] c]; rewrite H; [|done].
  by destruct (recommend env (capabilitiesOf g env)) as [[storageAdapter features] optimizations].
Qed.

(** Every call leaves the variable as it was, or with the result of a
    detection that returned, or empty. *)
Lemma after_cache cache call :
  after cache call = cache \/
  after cache call = None \/
  exists g env, detect g = Return env /\ after cache call = Some env.
Proof.
  assert (Hd : forall g,
    snd (detectEnvironment g cache) = cache \/
    exists g' env, detect g' = Return env /\
      snd (detectEnvironment g cache) = Some env).
  { intros g. destruct (detectEnvironment_cache g cache) as [H|[_ [env [Hd H]]]].
    - by left.
    - right. exists g, env. by rewrite H. }
  destruct call as [g| |g|g|g|g]; simpl.
  - destruct (Hd g) as [H|H]; auto.
  - auto.
  - rewrite snd_getPlatform. destruct (Hd g) as [H|H]; auto.
  - rewrite snd_detectStorageCapabilities. destruct (Hd g) as [H|H]; auto.
  - rewrite snd_validateFetchSupport. destruct (typeofDefined (fetch g)); [auto|].
    destruct (Hd g) as [H|H]; auto.
  - rewrite snd_getEnvironmentRecommendations. destruct (Hd g) as [H|H]; auto.
Qed.

Lemma fold_after_Consistent calls : forall cache,
  (forall env, cache = Some env -> Consistent env) ->
  forall env, fold_left after calls cache = Some env -> Consistent env.
Proof.
  induction calls as [|call calls IH]; intros cache Hc env; simpl; [by apply Hc|].
  apply IH. intros env' He.
  destruct (after_cache cache call) as [H|[H|[g [env'' [Hd H]]]]];
    rewrite H in He.
  - by apply Hc.
  - discriminate.
  - injection He as <-. by apply (detect_Consistent g).
Qed.

Lemma cacheAfter_Consistent calls env :
  cacheAfter calls = Some env -> Consistent env.
Proof. apply fold_after_Consistent. discriminate. Qed.

Lemma detectEnvironment_Consistent calls g env c :
  detectEnvironment g (cacheAfter calls) = (Return env, c) -> Consistent env.
Proof.
  intros Hd. apply detectEnvironment_returns in Hd as [_ [H|[_ H]]].
  - by apply (cacheAfter_Consistent calls).
  - by apply (detect_Consistent g).
Qed.

(** X10: however the module has been used before, an environment that
    [detectEnvironment] returns never has [isReactNative] together with
    [isNode] or [isBrowser], and has [supportsMMKV] only with
    [isReactNative]. *)
Theorem flags_exclusive calls g env c :
  detectEnvironment g (cacheAfter calls) = (Return env, c) ->
  (isReactNative env = true -> isNode env = false /\ isBrowser env = false) /\
  (supportsMMKV env = true -> isReactNative env = true).
Proof. apply detectEnvironment_Consistent. Qed.

Lemma detectReactNative_returns g :
  navigator g <> Declared VNull ->
  detectReactNative g =
    if reactNativeNavigator g then Return true
    else match global g with
         | Undeclared => Throw (ReferenceError "global")
         | Declared VUndefined | Declared VNull => Throw TypeError
         | Declared (VObj object) =>
             Return (isDefined (getProp "HermesInternal" object)
                     || isDefined (getProp "__DEV__" object))
         | Declared _ => Return false
         end.
Proof.
  intros Hn. unfold detectReactNative, reactNativeNavigator.
  assert (Hg :
    bind (if typeofDefined (global g)
          then bind (lookup "global" (global g)) (fun gl =>
               bind (member gl "HermesInternal") (fun hermes =>
               Return (isDefined hermes)))
          else Return false) (fun byHermes =>
    if byHermes then Return true
    else
      bind (lookup "global" (global g)) (fun gl =>
      bind (member gl "__DEV__") (fun dev =>
      if isDefined dev then Return true
      else if typeofDefined (global g)
           then bind (lookup "global" (global g)) (fun gl' =>
                bind (member gl' "__DEV__") (fun dev' =>
                Return (isDefined dev')))
           else Return false))) =
    match global g with
    | Undeclared => Throw (ReferenceError "global")
    | Declared VUndefined | Declared VNull => Throw TypeError
    | Declared (VObj object) =>
        Return (isDefined (getProp "HermesInternal" object)
                || isDefined (getProp "__DEV__" object))
    | Declared _ => Return false
    end).
  { destruct (global g) as [|[]]; try reflexivity. simpl.
    destruct (isDefined (getProp "HermesInternal" _)); [done|]. simpl.
    by destruct (isDefined (getProp "__DEV__" _)). }
  destruct (navigator g) as [|[]]; simpl; try exact Hg; [done|].
  destruct (isStringLiteral "ReactNative" _); [done|exact Hg].
Qed.

(** X11: a detection returns exactly when [navigator] is not [null],
    [process] is declared, and either [navigator.product] is
    ['ReactNative'] or [global] is declared with a value other than
    [undefined] and [null]; otherwise it throws.  A runtime without a
    [global] binding, as a browser, gets an error and no environment. *)
Theorem detection_returns g :
  (exists env, detect g = Return env) <->
  navigator g <> Declared VNull /\
  process g <> Undeclared /\
  (reactNativeNavigator g = true \/
   exists v, global g = Declared v /\ isNullish v = false).
Proof.
  unfold detect. split.
  - intros [env He].
    assert (Hn : navigator g <> Declared VNull).
    { intros Hn. unfold detectReactNative in He. by rewrite Hn in He. }
    rewrite (detectReactNative_returns g Hn) in He.
    split; [done|]. split.
    + intros Hp. destruct (if reactNativeNavigator g then _ else _); [|done].
      simpl in He. unfold nodeVersion in He. by rewrite Hp in He.
    + destruct (reactNativeNavigator g); [by left|]. right.
      destruct (global g) as [|v]; [done|]. exists v. split; [done|].
      by destruct v.
  - intros (Hn & Hp & Hg). rewrite (detectReactNative_returns g Hn).
    assert (Hnode : exists node, nodeVersion g = Return node).
    { unfold nodeVersion. destruct (process g) as [|proc]; [done|]. simpl.
      destruct proc; simpl; eauto.
      match goal with |- context [getProp "versions" ?o] =>
        destruct (getProp "versions" o); simpl; eauto end. }
    destruct Hnode as [node Hnode].
    destruct (reactNativeNavigator g).
    + simpl. rewrite Hnode. simpl. eauto.
    + destruct Hg as [Hg|(v & Hg & Hv)]; [done|]. rewrite Hg.
      destruct v; try discriminate Hv; simpl; rewrite Hnode; simpl; eauto.
Qed.

(** A browser has no [global]: the detection throws there. *)
Example browser_throws :
  detectEnvironment browser None = (Throw (ReferenceError "global"), None).
Proof. reflexivity. Qed.

Lemma after_Some env call :
  call <> CallClearEnvironmentCache -> after (Some env) call = Some env.
Proof.
  intros Hc. destruct call as [g| |g|g|g|g]; simpl; try done.
  - unfold validateFetchSupport. by destruct (typeofDefined (fetch g)).
  - rewrite snd_getEnvironmentRecommendations. done.
Qed.

Lemma fold_after_Some env calls :
  ~ In CallClearEnvironmentCache calls ->
  fold_left after calls (Some env) = Some env.
Proof.
  induction calls as [|call calls IH]; simpl; [done|]. intros Hc.
  rewrite after_Some; [|intros ->; apply Hc; by left].
  apply IH. intros H. apply Hc. by right.
Qed.

(** X12: once [detectEnvironment] has returned an environment, every later
    call returns that same environment whatever the globals have become,
    through any calls of the module's functions, until
    [clearEnvironmentCache] is called; a detection that throws leaves
    nothing behind, so the next call detects again. *)
Theorem detection_cached g cache r c :
  detectEnvironment g cache = (r, c) ->
  match r with
  | Return env =>
      forall calls g',
        ~ In CallClearEnvironmentCache calls ->
        detectEnvironment g' (fold_left after calls c) = (Return env, Some env) /\
        getPlatform g' (fold_left after calls c) = (Return (platformOf env), Some env)
  | Throw e =>
      c = None /\ forall g', detectEnvironment g' c = detectEnvironment g' None
  end.
Proof.
  destruct r as [env|e]; intros Hd.
  - apply detectEnvironment_returns in Hd as [-> _]. intros calls g' Hc.
    rewrite (fold_after_Some env calls Hc). split; reflexivity.
  - apply detectEnvironment_throws in Hd as (_ & -> & _). done.
Qed.

(** X13: [validateFetchSupport] reports support exactly when [fetch] is
    defined, asks for a polyfill exactly when it is not, gives no
    recommendation with support and two without, and does not detect the
    environment when [fetch] is defined. *)
Theorem validateFetchSupport_result g cache result c :
  validateFetchSupport g cache = (Return result, c) ->
  isSupported result = typeofDefined (fetch g) /\
  polyfillNeeded result = negb (isSupported result) /\
  length (recommendations result) = (if isSupported result then 0 else 2) /\
  (isSupported result = true -> c = cache).
Proof.
  unfold validateFetchSupport. destruct (typeofDefined (fetch g)).
  - intros [= <- <-]. done.
  - destruct (detectEnvironment g cache) as [[env|e] c']; [|discriminate].
    intros [= <- <-]. simpl. repeat split; [|discriminate].
    by destruct (isNode env), (isReactNative env).
Qed.

(** X14: however the module has been used before, the capabilities
    [detectStorageCapabilities] returns never have [hasLocalStorage]
    together with a React Native storage ([hasAsyncStorage], [hasMMKV],
    [hasSecureStore]), and have [hasLocalStorage] only when [localStorage]
    is defined. *)
Theorem storage_exclusive calls g capabilities c :
  detectStorageCapabilities g (cacheAfter calls) = (Return capabilities, c) ->
  hasLocalStorage capabilities = true ->
  typeofDefined (localStorage g) = true /\
  hasAsyncStorage capabilities = false /\
  hasMMKV capabilities = false /\
  hasSecureStore capabilities = false.
Proof.
  unfold detectStorageCapabilities.
  destruct (detectEnvironment g (cacheAfter calls)) as [[env|e] c'] eqn:Hd;
    [|discriminate].
  apply detectEnvironment_Consistent in Hd as [Hrn _].
  intros [= <- <-]. unfold capabilitiesOf. simpl.
  destruct (isBrowser env) eqn:Hb; [|discriminate]. intros Hl.
  destruct (isReactNative env); [|done].
  destruct (Hrn eq_refl) as [_ ?]. discriminate.
Qed.

(** X15: however the module has been used before, the recommendations of
    [getEnvironmentRecommendations] name the adapter ['filesystem'] only
    for the platform ['node'], ['mmkv'] and ['asyncstorage'] only for
    ['react-native'], ['localstorage'] only for ['browser'] or ['node'],
    and for the platform ['unknown'] the adapter ['memory'] with no feature
    and no optimization. *)
Theorem recommendations_consistent calls g result c :
  getEnvironmentRecommendations g (cacheAfter calls) = (Return result, c) ->
  (storageAdapter result = "filesystem" -> platform result = "node") /\
  (storageAdapter result = "mmkv" \/ storageAdapter result = "asyncstorage" ->
   platform result = "react-native") /\
  (storageAdapter result = "localstorage" ->
   platform result = "browser" \/ platform result = "node") /\
  (platform result = "unknown" ->
   storageAdapter result = "memory" /\
   features result = [] /\ optimizations result = []).
Proof.
  pose proof (getEnvironmentRecommendations_returns g (cacheAfter calls)) as H.
  destruct (detectEnvironment g (cacheAfter calls)) as [[env|e] c'] eqn:Hd;
    rewrite H; [|discriminate].
  apply detectEnvironment_Consistent in Hd as [Hrn Hmmkv].
  destruct (recommend env (capabilitiesOf g env))
    as [[adapter feats] opts] eqn:Hr.
  intros [= <- <-]. simpl.
  unfold recommend, capabilitiesOf, platformOf in *. simpl in Hr.
  destruct (isReactNative env).
  - destruct (supportsMMKV env),
      (resolves g "@react-native-async-storage/async-storage" || resolves g "react-native"),
      (resolves g "expo-secure-store");
      injection Hr as <- <- <-; repeat split; intros; try done;
      match goal with H : _ \/ _ |- _ => destruct H; done end.
  - destruct (isBrowser env).
    + destruct (typeofDefined (localStorage g)), (isNode env);
        injection Hr as <- <- <-; repeat split; intros; try done;
        try (by left); try (by right);
        match goal with H : _ \/ _ |- _ => destruct H; done end.
    + destruct (isNode env);
        injection Hr as <- <- <-; repeat split; intros; try done;
        match goal with H : _ \/ _ |- _ => destruct H; done end.
Qed.

(** With a [window], a [document] and a Node.js [process], the platform is
    ['node'] and the adapter the browser's. *)
Example jsdom_recommendations :
  fst (getEnvironmentRecommendations jsdom None) =
    Return {| platform := "node";
              storageAdapter := "localstorage";
              features := ["Browser persistent storage"];
              optimizations :=
                ["Use localStorage for token persistence";
                 "Consider sessionStorage for temporary tokens";
                 "Use Web Workers for background token refresh";
                 "Implement visibility API for tab focus handling"] |}.
Proof. reflexivity. Qed.

Lemma flags_exclusive_witness :
  exists env c,
    detectEnvironment browser
      (cacheAfter [CallGetPlatform jsdom; CallClearEnvironmentCache;
                   CallDetectStorageCapabilities reactNative]) = (Return env, c) /\
    isReactNative env = true /\
    (isReactNative env = true -> isNode env = false /\ isBrowser env = false) /\
    (supportsMMKV env = true -> isReactNative env = true).
Proof.
  eexists. eexists. split; [reflexivity|]. split; [reflexivity|].
  refine (flags_exclusive
            [CallGetPlatform jsdom; CallClearEnvironmentCache;
             CallDetectStorageCapabilities reactNative] browser _ _ _).
  reflexivity.
Defined.

Lemma detection_cached_witness :
  exists env,
    detectEnvironment reactNative None = (Return env, Some env) /\
    forall calls g',
      ~ In CallClearEnvironmentCache calls ->
      detectEnvironment g' (fold_left after calls (Some env)) = (Return env, Some env) /\
      getPlatform g' (fold_left after calls (Some env)) =
        (Return (platformOf env), Some env).
Proof.
  eexists. split; [reflexivity|].
  exact (detection_cached reactNative None _ _ eq_refl).
Defined.

Lemma validateFetchSupport_result_witness :
  exists result c,
    validateFetchSupport reactNative None = (Return result, c) /\
    isSupported result = typeofDefined (fetch reactNative) /\
    polyfillNeeded result = negb (isSupported result) /\
    length (recommendations result) = (if isSupported result then 0 else 2) /\
    (isSupported result = true -> c = None).
Proof.
  eexists. eexists. split; [reflexivity|].
  refine (validateFetchSupport_result reactNative None _ _ _). reflexivity.
Defined.

Lemma storage_exclusive_witness :
  exists capabilities c,
    detectStorageCapabilities jsdom (cacheAfter []) = (Return capabilities, c) /\
    hasLocalStorage capabilities = true /\
    typeofDefined (localStorage jsdom) = true /\
    hasAsyncStorage capabilities = false /\
    hasMMKV capabilities = false /\
    hasSecureStore capabilities = false.
Proof.
  eexists. eexists. split; [reflexivity|]. split; [reflexivity|].
  refine (storage_exclusive [] jsdom _ _ _ _); reflexivity.
Defined.

Lemma recommendations_consistent_witness :
  exists result c,
    getEnvironmentRecommendations jsdom (cacheAfter []) = (Return result, c) /\
    storageAdapter result = "localstorage" /\
    (storageAdapter result = "filesystem" -> platform result = "node") /\
    (storageAdapter result = "mmkv" \/ storageAdapter result = "asyncstorage" ->
     platform result = "react-native") /\
    (storageAdapter result = "localstorage" ->
     platform result = "browser" \/ platform result = "node") /\
    (platform result = "unknown" ->
     storageAdapter result = "memory" /\
     features result = [] /\ optimizations result = []).
Proof.
  eexists. eexists. split; [reflexivity|]. split; [reflexivity|].
  refine (recommendations_consistent [] jsdom _ _ _). reflexivity.
Defined.

End EnvironmentSpec.

(** * The React Native managers: proofs *)

Module ReactNativeSpec.

Import ReactNative.

Section Listeners.

Context {Listener State : Type} `{EqDecision Listener}.

Implicit Types (l : Listener) (ls : list Listener) (state : State).

Lemma received_app l (effects effects' : list (Effect Listener State)) :
  received l (effects ++ effects') = received l effects ++ received l effects'.
Proof.
  induction effects as [|[l' state|l' state] effects IH]; simpl; [done| |done].
  destruct (decide (l' = l)); simpl; by rewrite IH.
Qed.

Lemma registrations_In l ls : In l ls -> 0 < registrations l ls.
Proof.
  unfold registrations. induction ls as [|l' ls IH]; simpl; [done|].
  rewrite filter_cons. intros [->|Hin].
  - rewrite decide_True by done. simpl. lia.
  - destruct (decide (l' = l)); simpl; [lia|by apply IH].
Qed.

Lemma registrations_not_In l ls : ~ In l ls -> registrations l ls = 0.
Proof.
  unfold registrations. induction ls as [|l' ls IH]; simpl; [done|].
  rewrite filter_cons. intros Hn.
  rewrite decide_False by (intros ->; apply Hn; by left).
  apply IH. intros Hin. apply Hn. by right.
Qed.

Lemma unsubscribe_cons l l' ls :
  unsubscribe l (l' :: ls) =
    if decide (l' = l) then ls else l' :: unsubscribe l ls.
Proof.
  unfold unsubscribe. simpl. destruct (decide (l' = l)); [done|].
  by destruct (indexOf l ls).
Qed.

Lemma unsubscribe_not_In l ls : ~ In l ls -> unsubscribe l ls = ls.
Proof.
  induction ls as [|l' ls IH]; [done|]. intros Hn.
  rewrite unsubscribe_cons.
  rewrite decide_False by (intros ->; apply Hn; by left).
  rewrite IH; [done|]. intros Hin. apply Hn. by right.
Qed.

Lemma unsubscribe_app l ls :
  ~ In l ls -> forall ls', unsubscribe l (ls ++ l :: ls') = ls ++ ls'.
Proof.
  induction ls as [|l' ls IH]; intros Hn ls'; simpl.
  - rewrite unsubscribe_cons. by rewrite decide_True.
  - rewrite unsubscribe_cons.
    rewrite decide_False by (intros ->; apply Hn; by left).
    rewrite IH; [done|]. intros Hin. apply Hn. by right.
Qed.

(** X16: calling the function that [addListener] returned removes one
    registration of its listener, if there is one, and leaves every other
    listener registered as often as before and in the same order. *)
Theorem unsubscribe_registrations l ls :
  (forall l', registrations l' (unsubscribe l ls) =
     if decide (l' = l) then pred (registrations l' ls)
     else registrations l' ls) /\
  filter (fun l' => l' <> l) (unsubscribe l ls) = filter (fun l' => l' <> l) ls.
Proof.
  induction ls as [|l0 ls (IHr & IHf)].
  - split; [|done]. intros l'. by destruct (decide (l' = l)).
  - rewrite unsubscribe_cons. destruct (decide (l0 = l)) as [->|Hne].
    + split.
      * intros l'. unfold registrations. rewrite filter_cons.
        destruct (decide (l' = l)) as [->|Hl].
        -- by rewrite decide_True.
        -- by rewrite decide_False by congruence.
      * rewrite filter_cons. simpl. by destruct (decide (l <> l)).
    + split.
      * intros l'. specialize (IHr l'). unfold registrations in *.
        rewrite !filter_cons.
        destruct (decide (l0 = l')) as [->|Hl]; simpl; [|exact IHr].
        rewrite decide_False in IHr by done. rewrite decide_False by done.
        by rewrite IHr.
      * rewrite !filter_cons. simpl. destruct (decide (l0 <> l)); [|done].
        by rewrite IHf.
Qed.

(** X17: for a listener that is not registered, the function an earlier
    [addListener] returned does nothing, and [addListener] followed by the
    returned function gives the list of listeners back; if that listener is
    registered twice, calling one returned function twice removes both
    registrations. *)
Theorem subscribe_unsubscribe l ls :
  ~ In l ls ->
  unsubscribe l ls = ls /\
  unsubscribe l (addListener l ls) = ls /\
  unsubscribe l (unsubscribe l (addListener l (addListener l ls))) = ls.
Proof.
  intros Hn. unfold addListener.
  assert (H1 : unsubscribe l (ls ++ [l]) = ls).
  { rewrite (unsubscribe_app l ls Hn []). by rewrite app_nil_r. }
  split; [by apply unsubscribe_not_In|]. split; [exact H1|].
  rewrite <- app_assoc. simpl. rewrite (unsubscribe_app l ls Hn [l]).
  exact H1.
Qed.

(** ** Listeners that do not call the manager back *)

Section Quiet.

Variable react : Listener -> State -> Reaction Listener.

Lemma forEach_quiet state ls :
  (forall l state', requests (react l state') = []) ->
  forall remaining index,
  remaining = length ls - index ->
  forEach react remaining index state {| walked := ls; replacement := None |} =
    ({| walked := ls; replacement := None |},
     flat_map (fun l =>
                 Called l state ::
                 (if throws (react l state) then [ConsoleError l state] else []))
              (drop index ls)).
Proof.
  intros quiet.
  induction remaining as [|remaining IH]; intros index Hrem; simpl.
  - rewrite drop_ge by lia. done.
  - destruct (ls !! index) as [l|] eqn:Hl.
    2:{ apply lookup_ge_None in Hl. lia. }
    rewrite quiet. simpl. rewrite IH by lia.
    by rewrite (drop_S _ _ _ Hl).
Qed.

Lemma notifyListeners_quiet ls state :
  (forall l state', requests (react l state') = []) ->
  notifyListeners react ls state =
    (ls, flat_map (fun l =>
                     Called l state ::
                     (if throws (react l state) then [ConsoleError l state] else []))
                  ls).
Proof.
  intros quiet. unfold notifyListeners.
  rewrite (forEach_quiet state ls quiet (length ls) 0) by lia.
  by rewrite drop_0.
Qed.

Lemma received_flat_map l ls state :
  received l
    (flat_map (fun l' =>
                 Called l' state ::
                 (if throws (react l' state) then [ConsoleError l' state] else []))
              ls) =
    replicate (registrations l ls) state.
Proof.
  unfold registrations.
  induction ls as [|l' ls IH]; simpl; [done|].
  rewrite filter_cons.
  assert (Hrest : received l
            ((if throws (react l' state) then [ConsoleError l' state] else []) ++
             flat_map (fun l'' =>
               Called l'' state ::
               (if throws (react l'' state) then [ConsoleError l'' state] else []))
               ls) = replicate (length (filter (fun l'' => l'' = l) ls)) state).
  { rewrite received_app, IH. by destruct (throws (react l' state)). }
  destruct (decide (l' = l)); simpl; by rewrite Hrest.
Qed.

End Quiet.

End Listeners.

Section AppStateManager.

Import AppState.

Context {Listener : Type} `{EqDecision Listener}.

Variable react : Listener -> string -> Reaction Listener.

Lemma last_replicate_pos {A} n (x : A) : 0 < n -> last (replicate n x) = Some x.
Proof.
  induction n as [|n IH]; [lia|]. intros _. destruct n; [done|].
  change (replicate (S (S n)) x) with (x :: x :: replicate n x).
  rewrite last_cons_cons. apply IH. lia.
Qed.

(** X18: when the listeners do not call the manager back, then through any
    series of changes of the application's state, whichever listeners
    throw, the manager keeps its listeners and ends in the last state of
    the series; the last state a registered listener was called with is the
    manager's current state (if it was never called, the state is the one
    at the start); and a listener registered once is never called twice in
    a row with the same state, nor first with the state at the start. *)
Theorem listeners_in_sync (m m' : Manager Listener) changes effects l :
  (forall listener state, requests (react listener state) = []) ->
  handleAll react m changes = (m', effects) ->
  In l (listeners m) ->
  listeners m' = listeners m /\
  currentState m' = default (currentState m) (last changes) /\
  default (currentState m) (last (received l effects)) = currentState m' /\
  (registrations l (listeners m) = 1 ->
   forall i before next,
     (currentState m :: received l effects) !! i = Some before ->
     (currentState m :: received l effects) !! S i = Some next ->
     before <> next).
Proof.
  intros Hquiet.
  revert m effects. induction changes as [|next changes IH]; intros m effects.
  - intros [= <- <-] Hin. repeat split. intros _ i before next _ Hn.
    by destruct i.
  - simpl. unfold handleAppStateChange.
    destruct (String.eqb_spec next (currentState m)) as [->|Hne]; simpl.
    + destruct (handleAll react m changes) as [m1 effects1] eqn:Hrun.
      intros [= <- <-] Hin. destruct (IH _ _ Hrun Hin) as (Hl & Hc & Hlast & Hrep).
      repeat split; [done| |done|done].
      rewrite Hc, last_cons. by destruct (last changes).
    + rewrite (notifyListeners_quiet react _ _ Hquiet).
      destruct (handleAll react _ changes) as [m1 effects1] eqn:Hrun.
      intros [= <- <-] Hin.
      destruct (IH _ _ Hrun Hin) as (Hl & Hc & Hlast & Hrep). simpl in *.
      rewrite received_app, received_flat_map.
      pose proof (registrations_In l _ Hin) as Hpos.
      repeat split; [done| | |].
      * rewrite Hc, last_cons. by destruct (last changes).
      * rewrite last_app, (last_replicate_pos _ _ Hpos).
        by destruct (last (received l effects1)).
      * intros Hone i before next'. rewrite Hone. simpl.
        destruct i as [|i]; simpl.
        -- intros [= <-] [= <-]. congruence.
        -- apply (Hrep Hone i).
Qed.

End AppStateManager.

Section NetworkManager.

Import Network.

Context {Listener : Type} `{EqDecision Listener}.

Variable react : Listener -> NetworkState -> Reaction Listener.




End NetworkManager.

Section Runs.

Local Open Scope string_scope.

Lemma subscribe_unsubscribe_witness :
  unsubscribe 3 [1; 2] = [1; 2] /\
  unsubscribe 3 (addListener 3 [1; 2]) = [1; 2] /\
  unsubscribe 3 (unsubscribe 3 (addListener 3 (addListener 3 [1; 2]))) = [1; 2].
Proof.
  apply (subscribe_unsubscribe 3 [1; 2]).
  intros [H|[H|[]]]; discriminate H.
Defined.

(** Two listeners, the first of which always throws, through four changes
    of which the second repeats the first. *)
Lemma listeners_in_sync_witness :
  exists m' effects,
    AppState.handleAll
      (fun listener _ => {| requests := []; throws := Nat.eqb listener 1 |})
      {| AppState.listeners := [1; 2]; AppState.currentState := "unknown" |}
      ["active"; "active"; "background"; "active"] = (m', effects) /\
    received 2 effects = ["active"; "background"; "active"] /\
    AppState.listeners m' = [1; 2] /\
    AppState.currentState m' =
      default "unknown" (last ["active"; "active"; "background"; "active"]) /\
    default "unknown" (last (received 2 effects)) = AppState.currentState m' /\
    (registrations 2 [1; 2] = 1 ->
     forall i before next,
       ("unknown" :: received 2 effects) !! i = Some before ->
       ("unknown" :: received 2 effects) !! S i = Some next ->
       before <> next).
Proof.
  eexists. eexists. split; [reflexivity|]. split; [reflexivity|].
  refine (listeners_in_sync
            (fun listener _ => {| requests := []; throws := Nat.eqb listener 1 |})
            {| AppState.listeners := [1; 2]; AppState.currentState := "unknown" |}
            _ ["active"; "active"; "background"; "active"] _ 2 _ _ _).
  - reflexivity.
  - reflexivity.
  - simpl. tauto.
Defined.


(** A listener that unsubscribes itself while it is told: the array
    shrinks under [forEach], the next listener moves to the index that has
    just been visited, and is not called for this change. *)
Example unsubscribing_listener_hides_next :
  AppState.handleAppStateChange
    (fun listener _ =>
       {| requests := if Nat.eqb listener 1 then [Unsubscribe 1] else [];
          throws := false |})
    {| AppState.listeners := [1; 2; 3]; AppState.currentState := "active" |}
    "background" =
  ({| AppState.listeners := [2; 3]; AppState.currentState := "background" |},
   [Called 1 "background"; Called 3 "background"]).
Proof. reflexivity. Qed.

(** A listener that adds a listener while it is told: the new one is not
    called for this change, and is registered afterwards. *)
Example added_listener_waits :
  AppState.handleAppStateChange
    (fun listener _ =>
       {| requests := if Nat.eqb listener 1 then [AddListener 4] else [];
          throws := false |})
    {| AppState.listeners := [1; 2]; AppState.currentState := "active" |}
    "background" =
  ({| AppState.listeners := [1; 2; 4]; AppState.currentState := "background" |},
   [Called 1 "background"; Called 2 "background"]).
Proof. reflexivity. Qed.

(** A listener that destroys the manager while it is told: the walk goes
    on over the old array, and the manager is left without listeners. *)
Example destroying_listener :
  AppState.handleAppStateChange
    (fun listener _ =>
       {| requests := if Nat.eqb listener 1 then [Destroy] else [];
          throws := false |})
    {| AppState.listeners := [1; 2]; AppState.currentState := "active" |}
    "background" =
  ({| AppState.listeners := []; AppState.currentState := "background" |},
   [Called 1 "background"; Called 2 "background"]).
Proof. reflexivity. Qed.

End Runs.

End ReactNativeSpec.
